(** * negroni: the middleware chain, its construction, mutation and traversal

    A shallow embedding of [negroni.go].  The Go program keeps a singly
    linked list of [middleware] structs that point at each other; the
    embedding keeps those structs in an explicit node heap (a list indexed
    by address, allocation appends at the end) so that the in-place update
    of [appendMiddleware] and the sharing of the terminal node are
    visible.  Loops and the recursive request traversal follow pointers
    through the heap and therefore take a fuel argument; the theorems give
    the fuel that suffices. *)

From Stdlib Require Import ZArith Lia String.
From stdpp Require Import base option list.

Open Scope Z_scope.
Open Scope nat_scope.

(** ** Results of heap-walking code *)

(** [Panic] is Go's run-time panic on a nil dereference; [OutOfFuel] only
    says that the fuel given to a loop of the model was too small. *)
Inductive result (A : Type) : Type :=
| Ok (a : A)
| Panic
| OutOfFuel.
Arguments Ok {A} a.
Arguments Panic {A}.
Arguments OutOfFuel {A}.

#[global] Instance result_ret : MRet result := fun A a => Ok a.
#[global] Instance result_bind : MBind result := fun A B k r =>
  match r with
  | Ok a => k a
  | Panic => Panic
  | OutOfFuel => OutOfFuel
  end.

(** ** What a request can observe *)

(** Handlers of the test-suite append strings to a shared variable; the
    tokens stand for those marks. *)
Inductive token : Type :=
| Enter (u : nat)
| Exit (u : nat)
| Note (s : string).

Inductive sinkEvent : Type :=
| SinkHeader (c : Z)
| SinkBody (b : list Byte.byte).

(** Modelled from the spec: the response wrapper ([NewResponseWriter] and
    the methods of the value it returns live in a file that is not part of
    the sources at hand).  Section 3 gives it an underlying sink, a status
    with an unset sentinel and a byte count. *)
Record responseWriter : Type := mkRW {
  sink : list sinkEvent;
  status : option Z;
  size : Z
}.

(** Modelled from the spec: a fresh wrapper around a sink. *)
Definition NewResponseWriter (s : list sinkEvent) : responseWriter :=
  {| sink := s; status := None; size := 0%Z |}.

(** Modelled from the spec: "records C as the observed status if this is
    the first status-setting call for this request; forwards C unchanged to
    the underlying sink". *)
Definition WriteHeader (c : Z) (w : responseWriter) : responseWriter :=
  {| sink := sink w ++ [SinkHeader c];
     status := match status w with None => Some c | Some s => Some s end;
     size := size w |}.



(** Everything a handler can change while one request is served: the marks
    it leaves and the response writer it was handed.  The request itself is
    opaque to the chain and is not represented. *)
Record World : Type := mkWorld {
  tokens : list token;
  rw : responseWriter
}.

Definition emit (t : token) (w : World) : World :=
  {| tokens := tokens w ++ [t]; rw := rw w |}.

Definition on_rw (f : responseWriter → responseWriter) (w : World) : World :=
  {| tokens := tokens w; rw := f (rw w) |}.

(** How a call ends: it returns, it panics (the world is left as it was at
    that moment), or the model ran out of fuel. *)
Inductive Outcome : Type :=
| Done (w : World)
| Panicked (w : World)
| Diverged.

(** Sequencing of Go statements: the rest runs only after a normal return. *)
Definition andThen (o : Outcome) (k : World → Outcome) : Outcome :=
  match o with
  | Done w => k w
  | Panicked w => Panicked w
  | Diverged => Diverged
  end.

(** ** Handlers *)

(** [http.HandlerFunc], the type of the continuation. *)
Definition httpHandlerFunc : Type := World → Outcome.

(** [func(rw, r, next)], the body of a negroni handler. *)
Definition handlerFn : Type := httpHandlerFunc → World → Outcome.

(** A value of interface type [http.Handler]: nil, or a [http.HandlerFunc]
    (whose function may itself be nil). *)
Inductive httpHandler : Type :=
| NilHttpHandler
| HttpHandlerFunc (f : option httpHandlerFunc).

Definition httpHandler_ServeHTTP (h : httpHandler) (w : World) : Outcome :=
  match h with
  | NilHttpHandler => Panicked w
  | HttpHandlerFunc None => Panicked w
  | HttpHandlerFunc (Some f) => f w
  end.

(** A value of interface type [Handler]: nil, or a [HandlerFunc]. *)
Inductive Handler : Type :=
| NilHandler
| HandlerFunc (h : option handlerFn).

(** [HandlerFunc.ServeHTTP] calls the function; calling through a nil
    interface or a nil function panics. *)
Definition Handler_ServeHTTP (h : Handler) (next : httpHandlerFunc)
    (w : World) : Outcome :=
  match h with
  | NilHandler => Panicked w
  | HandlerFunc None => Panicked w
  | HandlerFunc (Some f) => f next w
  end.

Definition Wrap (handler : httpHandler) : Handler :=
  HandlerFunc (Some (fun next w =>
    andThen (httpHandler_ServeHTTP handler w) next)).

(** ** The chain *)

Abbreviation ptr := (option nat).

Record middleware : Type := mkMiddleware {
  handler : Handler;
  next : ptr
}.

(** The node heap. *)
Abbreviation heap := (list middleware).

Definition alloc (m : middleware) (σ : heap) : nat * heap :=
  (length σ, σ ++ [m]).

(** [*p]: nil panics.  An address outside the heap cannot arise in Go; the
    model treats it like nil. *)
Definition deref (σ : heap) (p : ptr) : result middleware :=
  match p with
  | None => Panic
  | Some l => match σ !! l with
              | Some m => Ok m
              | None => Panic
              end
  end.

(** [p.handler = h] and [p.next = q]. *)
Definition store_handler (p : ptr) (h : Handler) (σ : heap) : result heap :=
  match p with
  | None => Panic
  | Some l => m ← deref σ p;
              Ok (<[l := {| handler := h; next := next m |}]> σ)
  end.

Definition store_next (p : ptr) (q : ptr) (σ : heap) : result heap :=
  match p with
  | None => Panic
  | Some l => m ← deref σ p;
              Ok (<[l := {| handler := handler m; next := q |}]> σ)
  end.

(** The zero value [middleware{}]. *)
Definition zeroMiddleware : middleware :=
  {| handler := NilHandler; next := None |}.

Definition noop : handlerFn := fun _ w => Done w.

Definition voidMiddleware (σ : heap) : middleware * heap :=
  let '(z, σ1) := alloc zeroMiddleware σ in
  ({| handler := HandlerFunc (Some noop); next := Some z |}, σ1).

Definition is_nil_handler (h : Handler) : bool :=
  match h with NilHandler => true | HandlerFunc _ => false end.

Definition is_nil_ptr (p : ptr) : bool :=
  match p with None => true | Some _ => false end.

Definition isVoidMiddleware (σ : heap) (m : ptr) : result bool :=
  match m with
  | Some _ =>
      node ← deref σ m;
      nx ← deref σ (next node);
      if is_nil_handler (handler nx) && is_nil_ptr (next nx)
      then Ok true else Ok false
  | None => Ok false
  end.

Fixpoint build (handlers : list Handler) (σ : heap) : middleware * heap :=
  match handlers with
  | [] => voidMiddleware σ
  | h0 :: rest =>
      let '(nxt, σ1) :=
        match rest with
        | _ :: _ => build rest σ
        | [] => voidMiddleware σ
        end in
      let '(p, σ2) := alloc nxt σ1 in
      ({| handler := h0; next := Some p |}, σ2)
  end.

(** The loop of [appendMiddleware]; it returns the final [pre] and [curr]. *)
Fixpoint append_walk (fuel : nat) (σ : heap) (pre curr : ptr)
    : result (ptr * ptr) :=
  match fuel with
  | 0 => OutOfFuel
  | S fuel' =>
      v ← isVoidMiddleware σ curr;
      if v : bool then Ok (pre, curr)
      else node ← deref σ curr;
           append_walk fuel' σ curr (next node)
  end.

Definition appendMiddleware (fuel : nat) (m : ptr) (h : Handler) (σ : heap)
    : result heap :=
  '(pre, curr) ← append_walk fuel σ None m;
  match pre with
  | None =>
      σ1 ← store_handler m h σ;
      let '(v, σ2) := voidMiddleware σ1 in
      let '(p, σ3) := alloc v σ2 in
      store_next m (Some p) σ3
  | Some _ =>
      let '(p, σ1) := alloc {| handler := h; next := curr |} σ in
      store_next pre (Some p) σ1
  end.

(** [middleware.ServeHTTP]: the continuation is the method value
    [m.next.ServeHTTP], which reads [*m.next] when it is formed. *)
Fixpoint middleware_ServeHTTP (fuel : nat) (σ : heap) (m : middleware)
    (w : World) : Outcome :=
  match fuel with
  | 0 => Diverged
  | S fuel' =>
      match deref σ (next m) with
      | Ok nx => Handler_ServeHTTP (handler m) (middleware_ServeHTTP fuel' σ nx) w
      | _ => Panicked w
      end
  end.

(** ** The stack *)

(** A [*Negroni] is the address of its only field, the head node, which
    the struct holds by value. *)
Abbreviation Negroni := nat (only parsing).

Definition New (handlers : list Handler) (σ : heap) : Negroni * heap :=
  let '(m, σ1) := build handlers σ in
  alloc m σ1.

(** [Negroni.ServeHTTP] wraps the sink it is given and starts at the head. *)
Definition Negroni_ServeHTTP (fuel : nat) (σ : heap) (n : Negroni)
    (tk : list token) (s : list sinkEvent) : Outcome :=
  let w := {| tokens := tk; rw := NewResponseWriter s |} in
  match deref σ (Some n) with
  | Ok m => middleware_ServeHTTP fuel σ m w
  | _ => Panicked w
  end.

Definition Use (fuel : nat) (n : Negroni) (h : Handler) (σ : heap)
    : result heap :=
  appendMiddleware fuel (Some n) h σ.

Definition UseFunc (fuel : nat) (n : Negroni) (handlerFunc : option handlerFn)
    (σ : heap) : result heap :=
  Use fuel n (HandlerFunc handlerFunc) σ.

Definition UseHandler (fuel : nat) (n : Negroni) (h : httpHandler) (σ : heap)
    : result heap :=
  Use fuel n (Wrap h) σ.

Definition UseHandlerFunc (fuel : nat) (n : Negroni)
    (handlerFunc : option httpHandlerFunc) (σ : heap) : result heap :=
  UseHandler fuel n (HttpHandlerFunc handlerFunc) σ.

(** ** Slices of handlers *)

(** A Go slice is a view (backing array, length, capacity) of an array that
    lives in the store; a nil slice has no array.  Arrays are kept apart
    from the nodes, as Go's types keep them apart. *)
Record slice : Type := mkSlice {
  arr : option nat;
  len : nat;
  cap : nat
}.

Definition nilSlice : slice := {| arr := None; len := 0; cap := 0 |}.

Record Store : Type := mkStore {
  nodes : heap;
  arrays : list (list Handler)
}.

Definition backing (st : Store) (s : slice) : list Handler :=
  match arr s with
  | Some a => default [] (arrays st !! a)
  | None => []
  end.

(** The elements a slice shows: the first [len] cells of its array. *)
Definition slice_elems (st : Store) (s : slice) : list Handler :=
  take (len s) (backing st s).

(** [s[i] = x], as a caller may do with a slice it was given. *)
Definition slice_set (s : slice) (i : nat) (x : Handler) (st : Store)
    : result Store :=
  match arr s with
  | Some a =>
      if decide (i < len s)
      then Ok {| nodes := nodes st;
                 arrays := alter (fun cells => <[i := x]> cells) a (arrays st) |}
      else Panic
  | None => Panic
  end.

Section WithRuntime.

(** The capacity the Go runtime picks when a full slice grows is not part
    of the program; any choice is allowed here, and [append] never takes
    less than it needs. *)
Variable growslice : nat → nat.

(** The builtin [append(s, x)]: in place when the array has room, into a
    new array otherwise. *)
Definition append (s : slice) (x : Handler) (st : Store) : slice * Store :=
  match arr s with
  | Some a =>
      if decide (len s < cap s)
      then ({| arr := Some a; len := S (len s); cap := cap s |},
            {| nodes := nodes st;
               arrays := alter (fun cells => <[len s := x]> cells) a (arrays st) |})
      else
        let newcap := Nat.max (S (len s)) (growslice (cap s)) in
        ({| arr := Some (length (arrays st)); len := S (len s); cap := newcap |},
         {| nodes := nodes st;
            arrays := arrays st ++
              [slice_elems st s ++ x :: replicate (newcap - S (len s)) NilHandler] |})
  | None =>
      let newcap := Nat.max (S (len s)) (growslice (cap s)) in
      ({| arr := Some (length (arrays st)); len := S (len s); cap := newcap |},
       {| nodes := nodes st;
          arrays := arrays st ++
            [slice_elems st s ++ x :: replicate (newcap - S (len s)) NilHandler] |})
  end.

(** The loop of [Negroni.Handlers]. *)
Fixpoint Handlers_loop (fuel : nat) (curr : ptr) (handlers : slice)
    (st : Store) : result (slice * Store) :=
  match fuel with
  | 0 => OutOfFuel
  | S fuel' =>
      v ← isVoidMiddleware (nodes st) curr;
      if v : bool then Ok (handlers, st)
      else node ← deref (nodes st) curr;
           let '(handlers', st') := append handlers (handler node) st in
           Handlers_loop fuel' (next node) handlers' st'
  end.

Definition Handlers (fuel : nat) (n : Negroni) (st : Store)
    : result (slice * Store) :=
  Handlers_loop fuel (Some n) nilSlice st.

End WithRuntime.

(** ** Registration sequences *)

(** [n.Use(u1); ...; n.Use(uk)]. *)
Fixpoint Uses (fuel : nat) (n : Negroni) (us : list Handler) (σ : heap)
    : result heap :=
  match us with
  | [] => Ok σ
  | u :: us' => σ' ← Use fuel n u σ; Uses fuel n us' σ'
  end.

(** [n := New(hs...)] followed by [Use] of each of [us]. *)
Definition stack (fuel : nat) (hs us : list Handler) (σ0 : heap)
    : result (Negroni * heap) :=
  let '(n, σ) := New hs σ0 in
  σ' ← Uses fuel n us σ;
  Ok (n, σ').

(** ** Units used in the properties *)

(** A unit that marks its entry, calls its continuation and marks its exit. *)
Definition onion (u : nat) : Handler :=
  HandlerFunc (Some (fun next w =>
    andThen (next (emit (Enter u) w)) (fun w' => Done (emit (Exit u) w')))).

(** A unit that runs [body] and returns without calling its continuation. *)
Definition stopper (body : World → Outcome) : Handler :=
  HandlerFunc (Some (fun _ w => body w)).

(** ** The shape of a chain in the heap *)

(** [lseg σ p cells q]: starting at address [p] and following [next], one
    passes the nodes listed in [cells] (address and handler of each, in
    order) and arrives at [q]. *)
Fixpoint lseg (σ : heap) (p : nat) (cells : list (nat * Handler)) (q : nat)
    : Prop :=
  match cells with
  | [] => p = q
  | c :: cells' =>
      c.1 = p ∧
      ∃ r, σ !! p = Some {| handler := c.2; next := Some r |} ∧
           lseg σ r cells' q
  end.

(** The terminal node as [voidMiddleware] makes it: the no-op handler and a
    [next] that points at a zero node. *)
Definition terminal (σ : heap) (v z : nat) : Prop :=
  σ !! v = Some {| handler := HandlerFunc (Some noop); next := Some z |} ∧
  σ !! z = Some zeroMiddleware.

(** A well-formed chain with head [n]: the registered nodes, then the
    terminal node [v] and its zero node [z], all at different addresses. *)
Definition chain (σ : heap) (n : nat) (cells : list (nat * Handler))
    (v z : nat) : Prop :=
  lseg σ n cells v ∧ terminal σ v z ∧ NoDup (cells.*1 ++ [v; z]).

(** The run of a chain described by the list of its handlers alone. *)
Fixpoint run (fuel : nat) (hs : list Handler) (w : World) : Outcome :=
  match fuel with
  | 0 => Diverged
  | S fuel' =>
      match hs with
      | [] => Done w
      | h :: hs' => Handler_ServeHTTP h (run fuel' hs') w
      end
  end.

(** The handlers the loop of [Handlers] gathers, as a list. *)
Fixpoint collect (fuel : nat) (σ : heap) (curr : ptr)
    : result (list Handler) :=
  match fuel with
  | 0 => OutOfFuel
  | S fuel' =>
      v ← isVoidMiddleware σ curr;
      if v : bool then Ok []
      else node ← deref σ curr;
           rest ← collect fuel' σ (next node);
           Ok (handler node :: rest)
  end.

(** The addresses at which the two walks evaluate their loop condition. *)
Fixpoint visited (fuel : nat) (σ : heap) (curr : ptr) : list ptr :=
  match fuel with
  | 0 => []
  | S fuel' =>
      curr ::
      match isVoidMiddleware σ curr with
      | Ok false =>
          match deref σ curr with
          | Ok node => visited fuel' σ (next node)
          | _ => []
          end
      | _ => []
      end
  end.

(** A slice owns room in the store: it is nil and empty, or its array
    exists and has exactly [cap] cells, of which [len] are shown. *)
Definition slice_ok (st : Store) (s : slice) : Prop :=
  match arr s with
  | Some a => ∃ cells, arrays st !! a = Some cells ∧
                       length cells = cap s ∧ len s ≤ cap s
  | None => len s = 0
  end.

(** The final [pre] of a walk that started with [pre] and passed [ls]. *)
Definition last_or (pre : ptr) (ls : list nat) : ptr :=
  match last ls with
  | Some l => Some l
  | None => pre
  end.

(** The heap [appendMiddleware] leaves when the head is the terminal node. *)
Definition append_at_head (n : nat) (h : Handler) (σ : heap) : heap :=
  <[n := {| handler := h; next := Some (S (length σ)) |}]> σ ++
  [zeroMiddleware;
   {| handler := HandlerFunc (Some noop); next := Some (length σ) |}].

(** The heap it leaves when the last registered node is at [lp] and the
    terminal node at [v]. *)
Definition append_after (lp : nat) (hp h : Handler) (v : nat) (σ : heap)
    : heap :=
  <[lp := {| handler := hp; next := Some (length σ) |}]> σ ++
  [{| handler := h; next := Some v |}].

(** The world after the units [ids] have marked their entry. *)
Definition entered (ids : list nat) (w : World) : World :=
  {| tokens := tokens w ++ (Enter <$> ids); rw := rw w |}.

(** The units [ids] mark their exit, if what they wrap returned. *)
Definition exited (ids : list nat) (o : Outcome) : Outcome :=
  andThen o (fun w =>
    Done {| tokens := tokens w ++ (Exit <$> ids); rw := rw w |}).

(** The result of the loop, read off the nodes alone. *)
Definition loop_agrees (N : nat) (s : slice) (st : Store)
    (expected : result (list Handler)) (got : result (slice * Store)) : Prop :=
  match expected with
  | Ok l =>
      ∃ s' st', got = Ok (s', st') ∧
        nodes st' = nodes st ∧ slice_ok st' s' ∧
        (∀ a, arr s' = Some a → N ≤ a) ∧
        take N (arrays st') = take N (arrays st) ∧
        slice_elems st' s' = slice_elems st s ++ l ∧
        len s' = len s + length l
  | Panic => got = Panic
  | OutOfFuel => got = OutOfFuel
  end.

(** The units a nil argument of [Use], [UseFunc], [UseHandler] and
    [UseHandlerFunc] registers. *)
Definition placeholder_units : list Handler :=
  [NilHandler; HandlerFunc None; Wrap NilHttpHandler;
   Wrap (HttpHandlerFunc None)].



(** What a chain of plain [http.Handler]s amounts to: each runs after the
    one before has returned. *)
Fixpoint serveAll (hs : list httpHandler) (w : World) : Outcome :=
  match hs with
  | [] => Done w
  | h :: hs' => andThen (httpHandler_ServeHTTP h w) (serveAll hs')
  end.

(** A unit that calls its continuation, and calls it again once it has
    returned. *)
Definition twice : Handler :=
  HandlerFunc (Some (fun next w => andThen (next w) next)).

(** The addresses a chain occupies. *)
Definition addrs (cells : list (nat * Handler)) (v z : nat) : list nat :=
  cells.*1 ++ [v; z].

(** Two stacks in one heap: [a := New(hsA...)], [b := New(hsB...)], then
    the [Use] calls on [a], then those on [b]. *)
Definition two_stacks (fuel : nat) (hsA usA hsB usB : list Handler)
    (σ0 : heap) : result (Negroni * Negroni * heap) :=
  let '(a, σ1) := New hsA σ0 in
  let '(b, σ2) := New hsB σ1 in
  σ3 ← Uses fuel a usA σ2;
  σ4 ← Uses fuel b usB σ3;
  Ok (a, b, σ4).


(** The world with more marks, and an outcome followed by more marks. *)
Definition marked (ts : list token) (w : World) : World :=
  {| tokens := tokens w ++ ts; rw := rw w |}.

Definition marked_after (ts : list token) (o : Outcome) : Outcome :=
  andThen o (fun w => Done (marked ts w)).

(** ** The fork with a request context

    The second version of [negroni.go] in the repository threads a
    [context.Context] through the chain: every handler receives one and
    hands one to its continuation.  Its chain code is the same, over
    handlers of the new type.  The context package is not part of the
    repository; the type of contexts and the value of
    [context.Background()] are left open. *)

Module Ctx.

Section WithContext.

Variable Context : Type.
Variable Background : Context.

(** [ContextHandlerFunc], also the type of the continuation. *)
Definition ContextHandlerFunc : Type := Context → World → Outcome.

(** [func(ctx, rw, r, next)]. *)
Definition handlerFn : Type := ContextHandlerFunc → Context → World → Outcome.

(** A value of interface type [ContextHandler]: nil, or a
    [ContextHandlerFunc] (whose function may itself be nil). *)
Inductive ContextHandler : Type :=
| NilContextHandler
| ContextHandlerFuncOf (f : option ContextHandlerFunc).

Definition ContextHandler_ServeHTTPC (h : ContextHandler) (ctx : Context)
    (w : World) : Outcome :=
  match h with
  | NilContextHandler => Panicked w
  | ContextHandlerFuncOf None => Panicked w
  | ContextHandlerFuncOf (Some f) => f ctx w
  end.

Inductive Handler : Type :=
| NilHandler
| HandlerFunc (h : option handlerFn).

Definition Handler_ServeHTTP (h : Handler) (next : ContextHandlerFunc)
    (ctx : Context) (w : World) : Outcome :=
  match h with
  | NilHandler => Panicked w
  | HandlerFunc None => Panicked w
  | HandlerFunc (Some f) => f next ctx w
  end.

Definition Wrap (handler : httpHandler) : Handler :=
  HandlerFunc (Some (fun next ctx w =>
    andThen (httpHandler_ServeHTTP handler w) (next ctx))).

Definition WrapCH (handler : ContextHandler) : Handler :=
  HandlerFunc (Some (fun next ctx w =>
    andThen (ContextHandler_ServeHTTPC handler ctx w) (next ctx))).

Record middleware : Type := mkMiddleware {
  handler : Handler;
  next : ptr
}.

Definition alloc (m : middleware) (σ : list middleware)
    : nat * list middleware :=
  (length σ, σ ++ [m]).

Definition deref (σ : list middleware) (p : ptr) : result middleware :=
  match p with
  | None => Panic
  | Some l => match σ !! l with
              | Some m => Ok m
              | None => Panic
              end
  end.

Definition store_handler (p : ptr) (h : Handler) (σ : list middleware)
    : result (list middleware) :=
  match p with
  | None => Panic
  | Some l => m ← deref σ p;
              Ok (<[l := {| handler := h; next := next m |}]> σ)
  end.

Definition store_next (p : ptr) (q : ptr) (σ : list middleware)
    : result (list middleware) :=
  match p with
  | None => Panic
  | Some l => m ← deref σ p;
              Ok (<[l := {| handler := handler m; next := q |}]> σ)
  end.

Definition zeroMiddleware : middleware :=
  {| handler := NilHandler; next := None |}.

Definition noop : handlerFn := fun _ _ w => Done w.

Definition voidMiddleware (σ : list middleware) : middleware * list middleware :=
  let '(z, σ1) := alloc zeroMiddleware σ in
  ({| handler := HandlerFunc (Some noop); next := Some z |}, σ1).

Definition is_nil_handler (h : Handler) : bool :=
  match h with NilHandler => true | HandlerFunc _ => false end.

Definition isVoidMiddleware (σ : list middleware) (m : ptr) : result bool :=
  match m with
  | Some _ =>
      node ← deref σ m;
      nx ← deref σ (next node);
      if is_nil_handler (handler nx) && is_nil_ptr (next nx)
      then Ok true else Ok false
  | None => Ok false
  end.

Fixpoint build (handlers : list Handler) (σ : list middleware)
    : middleware * list middleware :=
  match handlers with
  | [] => voidMiddleware σ
  | h0 :: rest =>
      let '(nxt, σ1) :=
        match rest with
        | _ :: _ => build rest σ
        | [] => voidMiddleware σ
        end in
      let '(p, σ2) := alloc nxt σ1 in
      ({| handler := h0; next := Some p |}, σ2)
  end.

Fixpoint append_walk (fuel : nat) (σ : list middleware) (pre curr : ptr)
    : result (ptr * ptr) :=
  match fuel with
  | 0 => OutOfFuel
  | S fuel' =>
      v ← isVoidMiddleware σ curr;
      if v : bool then Ok (pre, curr)
      else node ← deref σ curr;
           append_walk fuel' σ curr (next node)
  end.

Definition appendMiddleware (fuel : nat) (m : ptr) (h : Handler)
    (σ : list middleware) : result (list middleware) :=
  '(pre, curr) ← append_walk fuel σ None m;
  match pre with
  | None =>
      σ1 ← store_handler m h σ;
      let '(v, σ2) := voidMiddleware σ1 in
      let '(p, σ3) := alloc v σ2 in
      store_next m (Some p) σ3
  | Some _ =>
      let '(p, σ1) := alloc {| handler := h; next := curr |} σ in
      store_next pre (Some p) σ1
  end.

(** [middleware.ServeHTTPC]: the continuation is [m.next.ServeHTTPC]. *)
Fixpoint middleware_ServeHTTPC (fuel : nat) (σ : list middleware)
    (m : middleware) (ctx : Context) (w : World) : Outcome :=
  match fuel with
  | 0 => Diverged
  | S fuel' =>
      match deref σ (next m) with
      | Ok nx =>
          Handler_ServeHTTP (handler m) (middleware_ServeHTTPC fuel' σ nx) ctx w
      | _ => Panicked w
      end
  end.

Definition New (handlers : list Handler) (σ : list middleware)
    : nat * list middleware :=
  let '(m, σ1) := build handlers σ in
  alloc m σ1.

(** [Negroni.ServeHTTPC]: the caller's context, a wrapped sink. *)
Definition Negroni_ServeHTTPC (fuel : nat) (σ : list middleware) (n : nat)
    (ctx : Context) (tk : list token) (s : list sinkEvent) : Outcome :=
  let w := {| tokens := tk; rw := NewResponseWriter s |} in
  match deref σ (Some n) with
  | Ok m => middleware_ServeHTTPC fuel σ m ctx w
  | _ => Panicked w
  end.

(** [Negroni.ServeHTTP]: the same from [context.Background()]. *)
Definition Negroni_ServeHTTP (fuel : nat) (σ : list middleware) (n : nat)
    (tk : list token) (s : list sinkEvent) : Outcome :=
  let w := {| tokens := tk; rw := NewResponseWriter s |} in
  match deref σ (Some n) with
  | Ok m => middleware_ServeHTTPC fuel σ m Background w
  | _ => Panicked w
  end.

Definition Use (fuel : nat) (n : nat) (h : Handler) (σ : list middleware)
    : result (list middleware) :=
  appendMiddleware fuel (Some n) h σ.

Definition UseFunc (fuel : nat) (n : nat) (handlerFunc : option handlerFn)
    (σ : list middleware) : result (list middleware) :=
  Use fuel n (HandlerFunc handlerFunc) σ.

Definition UseHandler (fuel : nat) (n : nat) (h : httpHandler)
    (σ : list middleware) : result (list middleware) :=
  Use fuel n (Wrap h) σ.

Definition UseHandlerFunc (fuel : nat) (n : nat)
    (handlerFunc : option httpHandlerFunc) (σ : list middleware)
    : result (list middleware) :=
  UseHandler fuel n (HttpHandlerFunc handlerFunc) σ.

Definition UseContextHandler (fuel : nat) (n : nat) (h : ContextHandler)
    (σ : list middleware) : result (list middleware) :=
  Use fuel n (WrapCH h) σ.

Definition UseContextHandlerFunc (fuel : nat) (n : nat)
    (handlerFunc : option ContextHandlerFunc) (σ : list middleware)
    : result (list middleware) :=
  UseContextHandler fuel n (ContextHandlerFuncOf handlerFunc) σ.

(** [n.Use(u1); ...; n.Use(uk)], and [New] followed by them. *)
Fixpoint Uses (fuel : nat) (n : nat) (us : list Handler) (σ : list middleware)
    : result (list middleware) :=
  match us with
  | [] => Ok σ
  | u :: us' => σ' ← Use fuel n u σ; Uses fuel n us' σ'
  end.

Definition stack (fuel : nat) (hs us : list Handler) (σ0 : list middleware)
    : result (nat * list middleware) :=
  let '(n, σ) := New hs σ0 in
  σ' ← Uses fuel n us σ;
  Ok (n, σ').

(** The shape of a chain, as for the first version. *)
Fixpoint lseg (σ : list middleware) (p : nat) (cells : list (nat * Handler))
    (q : nat) : Prop :=
  match cells with
  | [] => p = q
  | c :: cells' =>
      c.1 = p ∧
      ∃ r, σ !! p = Some {| handler := c.2; next := Some r |} ∧
           lseg σ r cells' q
  end.

Definition terminal (σ : list middleware) (v z : nat) : Prop :=
  σ !! v = Some {| handler := HandlerFunc (Some noop); next := Some z |} ∧
  σ !! z = Some zeroMiddleware.

Definition chain (σ : list middleware) (n : nat)
    (cells : list (nat * Handler)) (v z : nat) : Prop :=
  lseg σ n cells v ∧ terminal σ v z ∧ NoDup (cells.*1 ++ [v; z]).

(** The run of a chain described by the list of its handlers alone. *)
Fixpoint run (fuel : nat) (hs : list Handler) (ctx : Context) (w : World)
    : Outcome :=
  match fuel with
  | 0 => Diverged
  | S fuel' =>
      match hs with
      | [] => Done w
      | h :: hs' => Handler_ServeHTTP h (run fuel' hs') ctx w
      end
  end.

Definition append_at_head (n : nat) (h : Handler) (σ : list middleware)
    : list middleware :=
  <[n := {| handler := h; next := Some (S (length σ)) |}]> σ ++
  [zeroMiddleware;
   {| handler := HandlerFunc (Some noop); next := Some (length σ) |}].

Definition append_after (lp : nat) (hp h : Handler) (v : nat)
    (σ : list middleware) : list middleware :=
  <[lp := {| handler := hp; next := Some (length σ) |}]> σ ++
  [{| handler := h; next := Some v |}].

(** A unit that derives a context with [f], marks it with [show], hands
    it to its continuation and marks it again when that has returned. *)
Definition deriving (show : Context → string) (f : Context → Context)
    : Handler :=
  HandlerFunc (Some (fun next ctx w =>
    let ctx' := f ctx in
    andThen (next ctx' (emit (Note (show ctx')) w))
            (fun w' => Done (emit (Note (show ctx')) w')))).

(** The contexts a row of deriving units makes, one from the other. *)
Fixpoint derived (fs : list (Context → Context)) (ctx : Context)
    : list Context :=
  match fs with
  | [] => []
  | f :: fs' => f ctx :: derived fs' (f ctx)
  end.

(** A plain handler or a context handler, as [UseHandler] and
    [UseContextHandler] register them. *)
Definition wrapped (h : httpHandler + ContextHandler) : Handler :=
  match h with
  | inl p => Wrap p
  | inr c => WrapCH c
  end.

(** Each of them run after the one before has returned, all with the
    same context. *)
Fixpoint serveAll (hs : list (httpHandler + ContextHandler)) (ctx : Context)
    (w : World) : Outcome :=
  match hs with
  | [] => Done w
  | inl p :: hs' => andThen (httpHandler_ServeHTTP p w) (serveAll hs' ctx)
  | inr c :: hs' => andThen (ContextHandler_ServeHTTPC c ctx w) (serveAll hs' ctx)
  end.

End WithContext.

Arguments NilContextHandler {Context}.
Arguments ContextHandlerFuncOf {Context} f.
Arguments ContextHandler_ServeHTTPC {Context} h ctx w.
Arguments NilHandler {Context}.
Arguments HandlerFunc {Context} h.
Arguments Handler_ServeHTTP {Context} h next ctx w.
Arguments Wrap {Context} handler.
Arguments WrapCH {Context} handler.
Arguments mkMiddleware {Context} handler next.
Arguments handler {Context} m.
Arguments next {Context} m.
Arguments alloc {Context} m σ.
Arguments deref {Context} σ p.
Arguments store_handler {Context} p h σ.
Arguments store_next {Context} p q σ.
Arguments zeroMiddleware {Context}.
Arguments noop {Context}.
Arguments voidMiddleware {Context} σ.
Arguments is_nil_handler {Context} h.
Arguments isVoidMiddleware {Context} σ m.
Arguments build {Context} handlers σ.
Arguments append_walk {Context} fuel σ pre curr.
Arguments appendMiddleware {Context} fuel m h σ.
Arguments middleware_ServeHTTPC {Context} fuel σ m ctx w.
Arguments New {Context} handlers σ.
Arguments Negroni_ServeHTTPC {Context} fuel σ n ctx tk s.
Arguments Negroni_ServeHTTP {Context} Background fuel σ n tk s.
Arguments Use {Context} fuel n h σ.
Arguments UseFunc {Context} fuel n handlerFunc σ.
Arguments UseHandler {Context} fuel n h σ.
Arguments UseHandlerFunc {Context} fuel n handlerFunc σ.
Arguments UseContextHandler {Context} fuel n h σ.
Arguments UseContextHandlerFunc {Context} fuel n handlerFunc σ.
Arguments Uses {Context} fuel n us σ.
Arguments stack {Context} fuel hs us σ0.
Arguments lseg {Context} σ p cells q.
Arguments terminal {Context} σ v z.
Arguments chain {Context} σ n cells v z.
Arguments run {Context} fuel hs ctx w.
Arguments append_at_head {Context} n h σ.
Arguments append_after {Context} lp hp h v σ.
Arguments deriving {Context} show f.
Arguments derived {Context} fs ctx.
Arguments wrapped {Context} h.
Arguments serveAll {Context} hs ctx w.

End Ctx.

(** A handler of the first version as a handler of the fork: it ignores
    the context and hands it on unchanged. *)
Definition lift {Context : Type} (h : Handler) : Ctx.Handler Context :=
  match h with
  | NilHandler => Ctx.NilHandler
  | HandlerFunc None => Ctx.HandlerFunc None
  | HandlerFunc (Some f) =>
      Ctx.HandlerFunc (Some (fun next ctx w => f (next ctx) w))
  end.

(** ** Basic facts about the heap *)

Ltac fresh_addr :=
  repeat (apply not_elem_of_cons; split; [lia|]); apply not_elem_of_nil.

Lemma lseg_app σ p c1 c2 q :
  lseg σ p (c1 ++ c2) q ↔ ∃ r, lseg σ p c1 r ∧ lseg σ r c2 q.
Proof.
  revert p. induction c1 as [|c c1 IH]; intros p; cbn [lseg fmap list_fmap].
  - split.
    + intros H. exists p. split; [reflexivity | exact H].
    + intros (r & -> & H). exact H.
  - split.
    + intros (Hc & r & Hp & Hrest). apply IH in Hrest as (r' & H1 & H2).
      exists r'. split; [|exact H2]. split; [exact Hc|]. exists r. auto.
    + intros (r' & (Hc & r & Hp & H1) & H2). split; [exact Hc|].
      exists r. split; [exact Hp|]. apply IH. exists r'. auto.
Qed.

Lemma lseg_ext σ σ' p cells q :
  lseg σ p cells q → lseg (σ ++ σ') p cells q.
Proof.
  revert p. induction cells as [|c cells IH]; intros p; cbn [lseg fmap list_fmap]; [auto|].
  intros (Hc & r & Hp & Hrest). split; [exact Hc|]. exists r. split.
  - apply lookup_app_l_Some. exact Hp.
  - apply IH. exact Hrest.
Qed.

Lemma lseg_frame σ k x p cells q :
  k ∉ cells.*1 → lseg σ p cells q → lseg (<[k := x]> σ) p cells q.
Proof.
  revert p. induction cells as [|c cells IH]; intros p Hk; cbn [lseg fmap list_fmap]; [auto|].
  intros (Hc & r & Hp & Hrest). cbn [fmap list_fmap] in Hk.
  apply not_elem_of_cons in Hk as [Hne Hk].
  split; [exact Hc|]. exists r. split.
  - rewrite list_lookup_insert_ne; [exact Hp | congruence].
  - apply IH; assumption.
Qed.

Lemma lseg_bound σ p cells q :
  lseg σ p cells q → Forall (fun l => l < length σ) cells.*1.
Proof.
  revert p. induction cells as [|c cells IH]; intros p; cbn [lseg fmap list_fmap].
  - constructor.
  - intros (Hc & r & Hp & Hrest). constructor.
    + rewrite Hc. eapply lookup_lt_Some. exact Hp.
    + eapply IH. exact Hrest.
Qed.

Lemma terminal_ext σ σ' v z : terminal σ v z → terminal (σ ++ σ') v z.
Proof.
  intros [Hv Hz]. unfold terminal.
  split; apply lookup_app_l_Some; assumption.
Qed.

Lemma terminal_frame σ k x v z :
  k ≠ v → k ≠ z → terminal σ v z → terminal (<[k := x]> σ) v z.
Proof.
  intros Hv Hz [H1 H2]. unfold terminal.
  rewrite !list_lookup_insert_ne by assumption. auto.
Qed.

Lemma chain_bound σ n cells v z :
  chain σ n cells v z → Forall (fun l => l < length σ) (cells.*1 ++ [v; z]).
Proof.
  intros (Hseg & [Hv Hz] & _). apply Forall_app. split.
  - eapply lseg_bound. exact Hseg.
  - repeat constructor; eapply lookup_lt_Some; eassumption.
Qed.

Lemma chain_head σ n cells v z :
  chain σ n cells v z → head (cells.*1 ++ [v]) = Some n.
Proof.
  intros (Hseg & _ & _). destruct cells as [|c cells]; simpl in *.
  - congruence.
  - destruct Hseg as [-> _]. reflexivity.
Qed.

(** ** The terminal test along a chain *)

Lemma isVoid_terminal σ v z :
  terminal σ v z → isVoidMiddleware σ (Some v) = Ok true.
Proof.
  intros [Hv Hz]. unfold isVoidMiddleware, deref; cbn.
  rewrite Hv; cbn. rewrite Hz; cbn. reflexivity.
Qed.

(** The node a segment starts at is never a zero node. *)
Lemma lseg_start_not_zero σ r cells v z :
  lseg σ r cells v → terminal σ v z →
  ∃ nx, σ !! r = Some nx ∧
        is_nil_handler (handler nx) && is_nil_ptr (next nx) = false.
Proof.
  intros Hseg [Hv Hz]. destruct cells as [|c cells]; cbn [lseg] in Hseg.
  - subst r. eexists. split; [exact Hv | reflexivity].
  - destruct Hseg as (_ & r' & Hr & _). eexists. split; [exact Hr|].
    cbn. apply andb_false_r.
Qed.

Lemma isVoid_cell σ p h r cells v z :
  σ !! p = Some {| handler := h; next := Some r |} →
  lseg σ r cells v → terminal σ v z →
  isVoidMiddleware σ (Some p) = Ok false.
Proof.
  intros Hp Hseg Hterm.
  destruct (lseg_start_not_zero _ _ _ _ _ Hseg Hterm) as (nx & Hr & Hnz).
  unfold isVoidMiddleware, deref; cbn. rewrite Hp; cbn. rewrite Hr; cbn.
  rewrite Hnz. reflexivity.
Qed.

(** ** The walks on a chain *)

Lemma append_walk_lseg σ cells v z :
  terminal σ v z →
  ∀ p pre fuel, lseg σ p cells v → length cells < fuel →
    append_walk fuel σ pre (Some p) = Ok (last_or pre cells.*1, Some v).
Proof.
  intros Hterm. induction cells as [|c cells IH]; intros p pre fuel Hseg Hfuel;
    destruct fuel as [|fuel]; cbn [length] in Hfuel; try lia;
    cbn [lseg] in Hseg; cbn [append_walk].
  - subst p. rewrite (isVoid_terminal _ _ _ Hterm). reflexivity.
  - destruct Hseg as (Hc & r & Hp & Hrest).
    rewrite (isVoid_cell _ _ _ _ _ _ _ Hp Hrest Hterm). cbn.
    unfold deref. rewrite Hp. cbn.
    rewrite (IH r (Some p) fuel Hrest) by lia.
    unfold last_or. cbn [fmap list_fmap]. rewrite last_cons, Hc.
    destruct (last cells.*1); reflexivity.
Qed.

Lemma collect_lseg σ cells v z :
  terminal σ v z →
  ∀ p fuel, lseg σ p cells v → length cells < fuel →
    collect fuel σ (Some p) = Ok cells.*2.
Proof.
  intros Hterm. induction cells as [|c cells IH]; intros p fuel Hseg Hfuel;
    destruct fuel as [|fuel]; cbn [length] in Hfuel; try lia;
    cbn [lseg] in Hseg; cbn [collect].
  - subst p. rewrite (isVoid_terminal _ _ _ Hterm). reflexivity.
  - destruct Hseg as (Hc & r & Hp & Hrest).
    rewrite (isVoid_cell _ _ _ _ _ _ _ Hp Hrest Hterm). cbn.
    unfold deref. rewrite Hp. cbn.
    rewrite (IH r fuel Hrest) by lia. reflexivity.
Qed.

Lemma visited_lseg σ cells v z :
  terminal σ v z →
  ∀ p fuel, lseg σ p cells v → length cells < fuel →
    visited fuel σ (Some p) = Some <$> (cells.*1 ++ [v]).
Proof.
  intros Hterm. induction cells as [|c cells IH]; intros p fuel Hseg Hfuel;
    destruct fuel as [|fuel]; cbn [length] in Hfuel; try lia;
    cbn [lseg] in Hseg; cbn [visited].
  - subst p. rewrite (isVoid_terminal _ _ _ Hterm). reflexivity.
  - destruct Hseg as (Hc & r & Hp & Hrest).
    rewrite (isVoid_cell _ _ _ _ _ _ _ Hp Hrest Hterm).
    unfold deref. rewrite Hp. cbn [next].
    rewrite (IH r fuel Hrest) by lia. rewrite <- Hc. reflexivity.
Qed.

(** ** Serving a chain *)

Lemma serve_lseg σ cells v z :
  terminal σ v z →
  ∀ p m fuel, lseg σ p cells v → σ !! p = Some m →
    middleware_ServeHTTP fuel σ m = run fuel cells.*2.
Proof.
  intros Hterm. induction cells as [|c cells IH]; intros p m fuel Hseg Hm;
    destruct fuel as [|fuel]; try reflexivity;
    cbn [lseg] in Hseg; cbn [middleware_ServeHTTP run fmap list_fmap].
  - subst p. destruct Hterm as [Hv Hz]. rewrite Hv in Hm.
    injection Hm as <-. unfold deref; cbn [next handler]. rewrite Hz.
    reflexivity.
  - destruct Hseg as (Hc & r & Hp & Hrest). rewrite Hp in Hm.
    injection Hm as <-. cbn [next handler].
    destruct (lseg_start_not_zero _ _ _ _ _ Hrest Hterm) as (nx & Hr & _).
    unfold deref. rewrite Hr.
    rewrite (IH r nx fuel Hrest Hr). reflexivity.
Qed.

(** ** Construction *)

Lemma build_cons h0 rest σ :
  build (h0 :: rest) σ =
  let '(nxt, σ1) := build rest σ in
  let '(p, σ2) := alloc nxt σ1 in
  ({| handler := h0; next := Some p |}, σ2).
Proof. destruct rest; reflexivity. Qed.

Lemma chain_void_alloc σ :
  chain ((σ ++ [zeroMiddleware]) ++
         [{| handler := HandlerFunc (Some noop); next := Some (length σ) |}])
        (S (length σ)) [] (S (length σ)) (length σ).
Proof.
  split; [reflexivity|]. split.
  - split.
    + rewrite lookup_app_r; rewrite length_app; cbn [length]; [|lia].
      replace (S (length σ) - (length σ + 1)) with 0 by lia. reflexivity.
    + apply lookup_app_l_Some. apply list_lookup_middle. reflexivity.
  - cbn. repeat (apply NoDup_cons; split; [fresh_addr|]). apply NoDup_nil_2.
Qed.

(** [build] leaves the heap it starts from in place and, once its result
    is stored, that result heads a well-formed chain of the handlers given,
    in their order. *)
Lemma build_chain hs :
  ∀ σ m σ1, build hs σ = (m, σ1) →
    σ `prefix_of` σ1 ∧
    ∃ cells v z, cells.*2 = hs ∧ chain (σ1 ++ [m]) (length σ1) cells v z.
Proof.
  induction hs as [|h0 rest IH]; intros σ m σ1 Hb.
  - cbn in Hb. injection Hb as <- <-. split; [apply prefix_app_r; reflexivity|].
    exists [], (S (length σ)), (length σ). split; [reflexivity|].
    rewrite length_app; cbn [length].
    replace (length σ + 1) with (S (length σ)) by lia.
    apply chain_void_alloc.
  - rewrite build_cons in Hb.
    destruct (build rest σ) as [nxt σ'] eqn:Hrest.
    cbn in Hb. injection Hb as <- <-.
    destruct (IH _ _ _ Hrest) as (Hpre & cells & v & z & Hhs & Hch).
    split; [apply prefix_app_r; exact Hpre|].
    exists ((length (σ' ++ [nxt]), h0) :: cells), v, z.
    split; [cbn; congruence|].
    pose proof (chain_bound _ _ _ _ _ Hch) as Hbound.
    destruct Hch as (Hseg & Hterm & Hnd).
    split; [|split].
    + cbn [lseg fst snd]. split; [reflexivity|]. exists (length σ'). split.
      * apply list_lookup_middle. reflexivity.
      * apply lseg_ext. exact Hseg.
    + apply terminal_ext. exact Hterm.
    + cbn [fmap list_fmap fst app]. apply NoDup_cons. split; [|exact Hnd].
      intros Hin. rewrite Forall_forall in Hbound. apply Hbound in Hin. lia.
Qed.

Lemma New_chain hs σ0 n σ :
  New hs σ0 = (n, σ) →
  σ0 `prefix_of` σ ∧ ∃ cells v z, cells.*2 = hs ∧ chain σ n cells v z.
Proof.
  unfold New. destruct (build hs σ0) as [m σ1] eqn:Hb. unfold alloc.
  intros H. injection H as <- <-.
  destruct (build_chain _ _ _ _ Hb) as (Hpre & cells & v & z & Hhs & Hch).
  split; [apply prefix_app_r; exact Hpre|]. eauto.
Qed.

(** ** Appending *)

Lemma appendMiddleware_empty σ n v z h fuel :
  chain σ n [] v z → 0 < fuel →
  appendMiddleware fuel (Some n) h σ = Ok (append_at_head n h σ).
Proof.
  intros (Hseg & Hterm & Hnd) Hfuel. cbn [lseg] in Hseg. subst v.
  unfold appendMiddleware.
  rewrite (append_walk_lseg σ [] n z Hterm n None fuel) by (cbn; auto).
  cbn [last_or last fmap list_fmap mbind result_bind].
  destruct Hterm as [Hn Hz]. pose proof (lookup_lt_Some _ _ _ Hn) as Hlt.
  unfold store_handler, deref. rewrite Hn. cbn [mbind result_bind next].
  unfold voidMiddleware, alloc. cbn [store_next deref].
  rewrite !length_app, !length_insert. cbn [length].
  rewrite <- !app_assoc. cbn [app].
  rewrite lookup_app_l by (rewrite length_insert; exact Hlt).
  rewrite list_lookup_insert_eq by exact Hlt.
  cbn [mbind result_bind handler]. f_equal.
  rewrite insert_app_l by (rewrite length_insert; exact Hlt).
  rewrite list_insert_insert_eq. unfold append_at_head.
  repeat f_equal; lia.
Qed.

Lemma chain_append_at_head σ n v z h :
  chain σ n [] v z →
  chain (append_at_head n h σ) n [(n, h)] (S (length σ)) (length σ).
Proof.
  intros (Hseg & [Hn Hz] & Hnd). cbn [lseg] in Hseg. subst v.
  pose proof (lookup_lt_Some _ _ _ Hn) as Hlt.
  unfold append_at_head. split; [|split].
  - cbn [lseg fst snd]. split; [reflexivity|].
    exists (S (length σ)). split; [|reflexivity].
    apply lookup_app_l_Some. apply list_lookup_insert_eq. exact Hlt.
  - split.
    + rewrite lookup_app_r; rewrite length_insert; [|lia].
      replace (S (length σ) - length σ) with 1 by lia. reflexivity.
    + rewrite lookup_app_r; rewrite length_insert; [|lia].
      replace (length σ - length σ) with 0 by lia. reflexivity.
  - cbn. repeat (apply NoDup_cons; split; [fresh_addr|]). apply NoDup_nil_2.
Qed.

Lemma appendMiddleware_after σ n cs lp hp v z h fuel :
  chain σ n (cs ++ [(lp, hp)]) v z → S (length cs) < fuel →
  appendMiddleware fuel (Some n) h σ = Ok (append_after lp hp h v σ).
Proof.
  intros (Hseg & Hterm & Hnd) Hfuel. unfold appendMiddleware.
  rewrite (append_walk_lseg σ _ v z Hterm n None fuel Hseg)
    by (rewrite length_app; cbn; lia).
  unfold last_or. rewrite fmap_app. cbn [fmap list_fmap fst].
  rewrite last_snoc. cbn [mbind result_bind].
  apply lseg_app in Hseg as (r & _ & Hlast). cbn [lseg fst snd] in Hlast.
  destruct Hlast as (<- & r' & Hlp & <-).
  pose proof (lookup_lt_Some _ _ _ Hlp) as Hlt.
  unfold alloc, store_next, deref.
  rewrite lookup_app_l by exact Hlt. rewrite Hlp.
  cbn [mbind result_bind handler]. f_equal.
  rewrite insert_app_l by exact Hlt. reflexivity.
Qed.

Lemma chain_append_after σ n cs lp hp v z h :
  chain σ n (cs ++ [(lp, hp)]) v z →
  chain (append_after lp hp h v σ) n
        (cs ++ [(lp, hp); (length σ, h)]) v z.
Proof.
  intros Hch. pose proof (chain_bound _ _ _ _ _ Hch) as Hbound.
  destruct Hch as (Hseg & Hterm & Hnd).
  apply lseg_app in Hseg as (r & Hcs & Hlast). cbn [lseg fst snd] in Hlast.
  destruct Hlast as (<- & r' & Hlp & <-).
  pose proof (lookup_lt_Some _ _ _ Hlp) as Hlt.
  rewrite fmap_app in Hnd, Hbound. cbn [fmap list_fmap fst] in Hnd, Hbound.
  rewrite <- app_assoc in Hnd, Hbound. cbn [app] in Hnd, Hbound.
  apply NoDup_app in Hnd as (Hnd1 & Hdisj & Hnd2).
  apply NoDup_cons in Hnd2 as (Hlp_notin & Hnd2).
  apply not_elem_of_cons in Hlp_notin as [Hlp_v Hlp_notin].
  apply not_elem_of_cons in Hlp_notin as [Hlp_z _].
  unfold append_after. split; [|split].
  - apply lseg_app. exists lp. split.
    + apply lseg_ext. apply lseg_frame; [|exact Hcs].
      intros Hin. apply (Hdisj _ Hin). left.
    + cbn [lseg fst snd]. split; [reflexivity|]. exists (length σ). split.
      * apply lookup_app_l_Some. apply list_lookup_insert_eq. exact Hlt.
      * split; [reflexivity|]. exists r'. split; [|reflexivity].
        rewrite lookup_app_r; rewrite length_insert; [|lia].
        replace (length σ - length σ) with 0 by lia. reflexivity.
  - apply terminal_ext. apply terminal_frame; [exact Hlp_v | exact Hlp_z | exact Hterm].
  - rewrite fmap_app. cbn [fmap list_fmap fst]. rewrite <- app_assoc.
    cbn [app]. apply NoDup_app. split; [exact Hnd1|]. split.
    + intros x Hin Hx. rewrite elem_of_cons in Hx.
      destruct Hx as [->|Hx]; [apply (Hdisj _ Hin); left|].
      rewrite elem_of_cons in Hx. destruct Hx as [->|Hx].
      * rewrite Forall_forall in Hbound.
        assert (length σ < length σ); [|lia].
        apply Hbound. apply elem_of_app. left. exact Hin.
      * apply (Hdisj _ Hin). right. exact Hx.
    + apply NoDup_cons. split.
      * fresh_addr.
      * apply NoDup_cons. split; [|exact Hnd2].
        intros Hin. rewrite Forall_forall in Hbound.
        assert (length σ < length σ); [|lia].
        apply Hbound. apply elem_of_app. right. right. exact Hin.
Qed.

(** One [Use] on a well-formed chain: it returns, and the chain it leaves
    is well formed and carries the new handler last. *)
Lemma Use_chain σ n cells v z h fuel :
  chain σ n cells v z → length cells < fuel →
  ∃ σ' cells' v' z',
    Use fuel n h σ = Ok σ' ∧ chain σ' n cells' v' z' ∧
    cells'.*2 = cells.*2 ++ [h].
Proof.
  intros Hch Hfuel. unfold Use.
  destruct cells as [|[lp hp] cs _] using rev_ind.
  - exists (append_at_head n h σ), [(n, h)], (S (length σ)), (length σ).
    split; [|split].
    + eapply appendMiddleware_empty; [exact Hch | lia].
    + eapply chain_append_at_head. exact Hch.
    + reflexivity.
  - rewrite length_app in Hfuel. cbn [length] in Hfuel.
    exists (append_after lp hp h v σ), (cs ++ [(lp, hp); (length σ, h)]), v, z.
    split; [|split].
    + eapply appendMiddleware_after; [exact Hch | lia].
    + apply chain_append_after. exact Hch.
    + rewrite !fmap_app. cbn [fmap list_fmap snd].
      rewrite <- app_assoc. reflexivity.
Qed.

Lemma Uses_chain us :
  ∀ σ n cells v z fuel,
    chain σ n cells v z → length cells + length us ≤ fuel →
    ∃ σ' cells' v' z',
      Uses fuel n us σ = Ok σ' ∧ chain σ' n cells' v' z' ∧
      cells'.*2 = cells.*2 ++ us.
Proof.
  induction us as [|u us IH]; intros σ n cells v z fuel Hch Hfuel.
  - exists σ, cells, v, z. cbn [Uses]. rewrite app_nil_r. auto.
  - cbn [length] in Hfuel. cbn [Uses].
    destruct (Use_chain σ n cells v z u fuel Hch) as (σ1 & c1 & v1 & z1 & HU & Hch1 & Hc1);
      [lia|].
    rewrite HU. cbn [mbind result_bind].
    assert (Hlen : length c1 = S (length cells)).
    { rewrite <- (length_fmap snd c1), Hc1, length_app, length_fmap.
      cbn [length]. lia. }
    destruct (IH σ1 n c1 v1 z1 fuel Hch1) as (σ' & c' & v' & z' & HUs & Hch' & Hc');
      [lia|].
    exists σ', c', v', z'. split; [exact HUs|]. split; [exact Hch'|].
    rewrite Hc', Hc1, <- app_assoc. reflexivity.
Qed.

(** Every stack made by [New] and any number of [Use] calls is a
    well-formed chain of the handlers given, in the order given. *)
Lemma stack_chain hs us σ0 fuel :
  length hs + length us ≤ fuel →
  ∃ n σ cells v z,
    stack fuel hs us σ0 = Ok (n, σ) ∧ chain σ n cells v z ∧
    cells.*2 = hs ++ us.
Proof.
  intros Hfuel. unfold stack.
  destruct (New hs σ0) as [n σ1] eqn:HN.
  destruct (New_chain _ _ _ _ HN) as (_ & c1 & v1 & z1 & Hc1 & Hch1).
  destruct (Uses_chain us σ1 n c1 v1 z1 fuel Hch1) as (σ & cells & v & z & HU & Hch & Hc).
  { rewrite <- (length_fmap snd c1), Hc1. exact Hfuel. }
  exists n, σ, cells, v, z. rewrite HU. cbn [mbind result_bind].
  split; [reflexivity|]. split; [exact Hch|]. rewrite Hc, Hc1. reflexivity.
Qed.

Lemma chain_head_lookup σ n cells v z :
  chain σ n cells v z → ∃ m, σ !! n = Some m.
Proof.
  intros (Hseg & Hterm & _).
  destruct (lseg_start_not_zero _ _ _ _ _ Hseg Hterm) as (m & Hm & _). eauto.
Qed.

Lemma Negroni_ServeHTTP_chain σ n cells v z fuel tk s :
  chain σ n cells v z →
  Negroni_ServeHTTP fuel σ n tk s =
  run fuel cells.*2 {| tokens := tk; rw := NewResponseWriter s |}.
Proof.
  intros Hch. destruct (chain_head_lookup _ _ _ _ _ Hch) as (m & Hm).
  destruct Hch as (Hseg & Hterm & _).
  unfold Negroni_ServeHTTP, deref. rewrite Hm.
  rewrite (serve_lseg σ cells v z Hterm n m fuel Hseg Hm). reflexivity.
Qed.

(** ** Runs of onion units *)

Lemma entered_nil w : entered [] w = w.
Proof. destruct w. unfold entered. cbn. rewrite app_nil_r. reflexivity. Qed.

Lemma entered_cons i ids w : entered ids (emit (Enter i) w) = entered (i :: ids) w.
Proof. unfold entered, emit. cbn. rewrite <- app_assoc. reflexivity. Qed.

Lemma exited_nil o : exited [] o = o.
Proof.
  destruct o as [[tk r]| |]; try reflexivity.
  unfold exited. cbn. rewrite app_nil_r. reflexivity.
Qed.

Lemma exited_snoc i ids o :
  andThen (exited ids o) (fun w => Done (emit (Exit i) w)) =
  exited (ids ++ [i]) o.
Proof.
  destruct o as [[tk r]| |]; try reflexivity.
  unfold exited, emit. cbn. rewrite fmap_app, <- app_assoc. reflexivity.
Qed.

(** Onion units in front of any chain: their entries in order, then the
    rest of the chain, then their exits in reverse order. *)
Lemma run_onion_prefix ids :
  ∀ rest fuel w, length ids ≤ fuel →
    run fuel ((onion <$> ids) ++ rest) w =
    exited (rev ids) (run (fuel - length ids) rest (entered ids w)).
Proof.
  induction ids as [|i ids IH]; intros rest fuel w Hfuel.
  - cbn [fmap list_fmap app length rev]. rewrite Nat.sub_0_r.
    rewrite entered_nil, exited_nil. reflexivity.
  - cbn [length] in Hfuel. destruct fuel as [|fuel]; [lia|].
    cbn [fmap list_fmap app length rev run onion Handler_ServeHTTP Nat.sub].
    rewrite IH by lia. rewrite exited_snoc, entered_cons. reflexivity.
Qed.

(** ** Slices and the loop of Handlers *)

Lemma slice_elems_length st s :
  slice_ok st s → length (slice_elems st s) = len s.
Proof.
  unfold slice_ok, slice_elems, backing. destruct (arr s) as [a|].
  - intros (cells & Ha & Hlen & Hle). rewrite Ha. cbn.
    apply length_take_le. lia.
  - intros ->. reflexivity.
Qed.

Section Slices.

Variable growslice : nat → nat.

Lemma append_grow_spec s x st :
  slice_ok st s →
  let newcap := Nat.max (S (len s)) (growslice (cap s)) in
  let s' := {| arr := Some (length (arrays st)); len := S (len s);
               cap := newcap |} in
  let st' := {| nodes := nodes st;
                arrays := arrays st ++
                  [slice_elems st s ++
                   x :: replicate (newcap - S (len s)) NilHandler] |} in
  slice_ok st' s' ∧ slice_elems st' s' = slice_elems st s ++ [x].
Proof.
  intros Hok newcap s' st'. pose proof (slice_elems_length _ _ Hok) as Hlen.
  split.
  - unfold slice_ok, s', st'. cbn [arr arrays len cap].
    eexists. split; [apply list_lookup_middle; reflexivity|].
    rewrite length_app. cbn [length]. rewrite length_replicate, Hlen.
    unfold newcap. lia.
  - unfold slice_elems at 1, backing, s', st'. cbn [arr arrays len].
    rewrite list_lookup_middle by reflexivity. cbn [default].
    rewrite (cons_middle x), app_assoc.
    apply take_app_length'. rewrite length_app, Hlen. cbn [length]. lia.
Qed.

(** What one [append] does to a slice whose array was made at an address
    not below [N]: nodes and the arrays below [N] stay, the slice shows
    one more element. *)
Lemma append_spec N s x st :
  N ≤ length (arrays st) → slice_ok st s →
  (∀ a, arr s = Some a → N ≤ a) →
  ∀ s' st', append growslice s x st = (s', st') →
    nodes st' = nodes st ∧ N ≤ length (arrays st') ∧ slice_ok st' s' ∧
    (∀ a, arr s' = Some a → N ≤ a) ∧
    take N (arrays st') = take N (arrays st) ∧
    slice_elems st' s' = slice_elems st s ++ [x] ∧ len s' = S (len s).
Proof.
  intros HN Hok Hown s' st' Happ. unfold append in Happ.
  destruct (arr s) as [a|] eqn:Harr;
    [destruct (decide (len s < cap s)) as [Hroom|Hfull]|].
  - injection Happ as <- <-. cbn [nodes arrays arr len cap].
    pose proof (Hown a eq_refl) as Ha.
    unfold slice_ok in Hok. rewrite Harr in Hok.
    destruct Hok as (cells & Hcells & Hlen & Hle).
    split; [reflexivity|]. split; [rewrite length_alter; exact HN|].
    split; [|split; [|split; [|split]]].
    + unfold slice_ok. cbn [arr arrays len cap].
      exists (<[len s := x]> cells). rewrite list_lookup_alter_eq, Hcells.
      split; [reflexivity|]. rewrite length_insert. split; [exact Hlen | lia].
    + intros a' Ha'. injection Ha' as <-. exact Ha.
    + apply take_alter_ge. exact Ha.
    + unfold slice_elems, backing. cbn [arr arrays len]. rewrite Harr.
      rewrite list_lookup_alter_eq, Hcells. cbn [fmap option_fmap option_map default].
      rewrite (take_S_r _ _ x) by (apply list_lookup_insert_eq; lia).
      unfold id. rewrite take_insert_ge by lia. reflexivity.
    + reflexivity.
  - injection Happ as <- <-.
    destruct (append_grow_spec s x st Hok) as [Hok' Hel].
    cbn [nodes arrays arr len cap].
    split; [reflexivity|]. split; [rewrite length_app; lia|].
    split; [exact Hok'|]. split; [|split; [|split]].
    + intros a' Ha'. injection Ha' as <-. exact HN.
    + apply take_app_le. exact HN.
    + exact Hel.
    + reflexivity.
  - injection Happ as <- <-.
    destruct (append_grow_spec s x st Hok) as [Hok' Hel].
    cbn [nodes arrays arr len cap].
    split; [reflexivity|]. split; [rewrite length_app; lia|].
    split; [exact Hok'|]. split; [|split; [|split]].
    + intros a' Ha'. injection Ha' as <-. exact HN.
    + apply take_app_le. exact HN.
    + exact Hel.
    + reflexivity.
Qed.

Lemma Handlers_loop_collect N fuel :
  ∀ curr s st,
    N ≤ length (arrays st) → slice_ok st s →
    (∀ a, arr s = Some a → N ≤ a) →
    loop_agrees N s st (collect fuel (nodes st) curr)
                (Handlers_loop growslice fuel curr s st).
Proof.
  induction fuel as [|fuel IH]; intros curr s st HN Hok Hown;
    cbn [collect Handlers_loop]; [reflexivity|].
  destruct (isVoidMiddleware (nodes st) curr) as [[|]| |];
    cbn [mbind result_bind]; try reflexivity.
  - exists s, st. rewrite app_nil_r. cbn [length]. rewrite Nat.add_0_r. auto 10.
  - destruct (deref (nodes st) curr) as [node| |];
      cbn [mbind result_bind]; try reflexivity.
    destruct (append growslice s (handler node) st) as [s1 st1] eqn:Happ.
    destruct (append_spec N s (handler node) st HN Hok Hown s1 st1 Happ)
      as (Hn1 & HN1 & Hok1 & Hown1 & Hfr1 & Hel1 & Hlen1).
    specialize (IH (next node) s1 st1 HN1 Hok1 Hown1).
    rewrite Hn1 in IH.
    destruct (collect fuel (nodes st) (next node)) as [l| |];
      cbn [mbind result_bind loop_agrees] in *; try exact IH.
    destruct IH as (s' & st' & Hloop & Hn' & Hok' & Hown' & Hfr' & Hel' & Hlen').
    exists s', st'. split; [exact Hloop|]. split; [congruence|].
    split; [exact Hok'|]. split; [exact Hown'|]. split; [congruence|].
    split.
    + rewrite Hel', Hel1, <- app_assoc. reflexivity.
    + cbn [length]. lia.
Qed.

Lemma Handlers_collect fuel n st :
  loop_agrees (length (arrays st)) nilSlice st
              (collect fuel (nodes st) (Some n))
              (Handlers growslice fuel n st).
Proof.
  unfold Handlers. apply Handlers_loop_collect.
  - lia.
  - reflexivity.
  - intros a Ha. discriminate Ha.
Qed.

End Slices.

Lemma isVoid_cells σ cells v z :
  terminal σ v z →
  ∀ p, lseg σ p cells v →
    Forall (fun l => isVoidMiddleware σ (Some l) = Ok false) cells.*1.
Proof.
  intros Hterm. induction cells as [|c cells IH]; intros p Hseg;
    cbn [fmap list_fmap]; [constructor|].
  cbn [lseg] in Hseg. destruct Hseg as (Hc & r & Hp & Hrest). constructor.
  - rewrite Hc. eapply isVoid_cell; eassumption.
  - eapply IH. exact Hrest.
Qed.

Lemma append_at_head_other σ n h l :
  l ≠ n → l < length σ → append_at_head n h σ !! l = σ !! l.
Proof.
  intros Hne Hlt. unfold append_at_head.
  rewrite lookup_app_l by (rewrite length_insert; exact Hlt).
  apply list_lookup_insert_ne. congruence.
Qed.

Lemma append_after_other σ lp hp h v l :
  l ≠ lp → l < length σ → append_after lp hp h v σ !! l = σ !! l.
Proof.
  intros Hne Hlt. unfold append_after.
  rewrite lookup_app_l by (rewrite length_insert; exact Hlt).
  apply list_lookup_insert_ne. congruence.
Qed.

Lemma placeholder_panics bad k w :
  bad ∈ placeholder_units → Handler_ServeHTTP bad k w = Panicked w.
Proof.
  unfold placeholder_units. rewrite !elem_of_cons.
  intros [->|[->|[->|[->|Hnil]]]]; try reflexivity.
  apply elem_of_nil in Hnil. destruct Hnil.
Qed.

(** Nothing registered after a unit that does not call its continuation
    has any effect on a run. *)
Lemma run_stop_independent pre body post :
  ∀ fuel, run fuel (pre ++ stopper body :: post) =
          run fuel (pre ++ [stopper body]).
Proof.
  induction pre as [|h pre IH]; intros [|fuel]; try reflexivity.
  cbn [app run]. rewrite IH. reflexivity.
Qed.

Lemma run_onions ids fuel w :
  length ids < fuel →
  run fuel (onion <$> ids) w =
  Done {| tokens := tokens w ++ (Enter <$> ids) ++ (Exit <$> rev ids);
          rw := rw w |}.
Proof.
  intros Hfuel. rewrite <- (app_nil_r (onion <$> ids)).
  rewrite run_onion_prefix by lia.
  destruct (fuel - length ids) as [|k] eqn:Hk; [lia|].
  cbn [run exited andThen entered tokens rw].
  rewrite <- app_assoc. reflexivity.
Qed.

(** * The properties *)

(** C1. Onion order.  A stack whose units (given to [New] or added by
    [Use], in any split) each mark their entry, call their continuation and
    mark their exit serves a request by running the entries in registration
    order and then the exits in reverse registration order. *)
Theorem serve_onion_order (ids1 ids2 : list nat) (σ0 : heap) (fuel : nat)
    (tk : list token) (s : list sinkEvent) :
  length ids1 + length ids2 < fuel →
  ∃ n σ,
    stack fuel (onion <$> ids1) (onion <$> ids2) σ0 = Ok (n, σ) ∧
    Negroni_ServeHTTP fuel σ n tk s =
    Done {| tokens := tk ++ (Enter <$> ids1 ++ ids2) ++
                      (Exit <$> rev (ids1 ++ ids2));
            rw := NewResponseWriter s |}.
Proof.
  intros Hfuel.
  destruct (stack_chain (onion <$> ids1) (onion <$> ids2) σ0 fuel)
    as (n & σ & cells & v & z & Hst & Hch & Hcells).
  { rewrite !length_fmap. lia. }
  exists n, σ. split; [exact Hst|].
  rewrite (Negroni_ServeHTTP_chain _ _ _ _ _ _ _ _ Hch), Hcells.
  rewrite <- fmap_app, <- (app_nil_r (onion <$> ids1 ++ ids2)).
  rewrite run_onion_prefix by (rewrite length_app; lia).
  rewrite length_app.
  destruct (fuel - (length ids1 + length ids2)) as [|k] eqn:Hk; [lia|].
  cbn [run exited andThen entered tokens rw].
  rewrite <- app_assoc. reflexivity.
Qed.

Lemma serve_onion_order_witness :
  length [1; 2] + length [3] < 4 ∧
  ∃ n σ,
    stack 4 (onion <$> [1; 2]) (onion <$> [3]) [] = Ok (n, σ) ∧
    Negroni_ServeHTTP 4 σ n [] [] =
    Done {| tokens := [] ++ (Enter <$> [1; 2] ++ [3]) ++
                      (Exit <$> rev ([1; 2] ++ [3]));
            rw := NewResponseWriter [] |}.
Proof.
  split; [cbn; lia|].
  apply (serve_onion_order [1; 2] [3] [] 4 [] []). cbn. lia.
Defined.

(** C2. Short circuit.  When a unit returns without calling its
    continuation, a request is served exactly as on the chain that ends
    with that unit: whatever units [post] are registered after it,
    however many, none of them runs, and this holds for arbitrary units
    [pre] in front.  When the units in front are the onion units [ids], the
    outcome is the stopping unit's body run after their entries, followed
    by their exits, and the traversal needs no more fuel than the depth of
    the stopping unit.  The handler of the terminal node is such a unit:
    it returns at once whatever its continuation is. *)
Theorem serve_short_circuit (hs us pre post : list Handler)
    (body : World → Outcome) (ids : list nat) (σ0 σ1 : heap)
    (fuel fs : nat) (tk : list token) (s : list sinkEvent) :
  hs ++ us = pre ++ stopper body :: post →
  length hs + length us ≤ fuel →
  length ids < fs →
  (∃ n σ,
     stack fuel hs us σ0 = Ok (n, σ) ∧
     ∀ fs',
       Negroni_ServeHTTP fs' σ n tk s =
       Negroni_ServeHTTP fs' (New (pre ++ [stopper body]) σ1).2
                         (New (pre ++ [stopper body]) σ1).1 tk s) ∧
  (∃ n σ,
     stack (length ids + S (length post)) (onion <$> ids)
           (stopper body :: post) σ0 = Ok (n, σ) ∧
     Negroni_ServeHTTP fs σ n tk s =
     exited (rev ids)
       (body {| tokens := tk ++ (Enter <$> ids);
                rw := NewResponseWriter s |})) ∧
  (∀ σ k w, Handler_ServeHTTP (handler (voidMiddleware σ).1) k w = Done w).
Proof.
  intros Hsplit Hfuel Hfs. split; [|split; [|reflexivity]].
  - destruct (stack_chain hs us σ0 fuel Hfuel)
      as (n & σ & cells & v & z & Hst & Hch & Hcells).
    exists n, σ. split; [exact Hst|]. intros fs'.
    destruct (New (pre ++ [stopper body]) σ1) as [n' σ'] eqn:HN.
    destruct (New_chain _ _ _ _ HN) as (_ & cells' & v' & z' & Hcells' & Hch').
    cbn [fst snd].
    rewrite (Negroni_ServeHTTP_chain _ _ _ _ _ _ _ _ Hch), Hcells, Hsplit.
    rewrite (Negroni_ServeHTTP_chain _ _ _ _ _ _ _ _ Hch'), Hcells'.
    rewrite run_stop_independent. reflexivity.
  - destruct (stack_chain (onion <$> ids) (stopper body :: post) σ0
                (length ids + S (length post)))
      as (n & σ & cells & v & z & Hst & Hch & Hcells).
    { cbn [length]. rewrite length_fmap. lia. }
    exists n, σ. split; [exact Hst|].
    rewrite (Negroni_ServeHTTP_chain _ _ _ _ _ _ _ _ Hch), Hcells.
    rewrite run_onion_prefix by lia.
    destruct (fs - length ids) as [|k] eqn:Hk; [lia|].
    reflexivity.
Qed.

Lemma serve_short_circuit_witness :
  let body := fun w => Done (emit (Enter 2) w) in
  [onion 1] ++ [stopper body; NilHandler; onion 4] =
    [onion 1] ++ stopper body :: [NilHandler; onion 4] ∧
  length [onion 1] + length [stopper body; NilHandler; onion 4] ≤ 4 ∧
  length [1] < 2 ∧
  (∃ n σ,
     stack 4 [onion 1] [stopper body; NilHandler; onion 4] [] = Ok (n, σ) ∧
     ∀ fs',
       Negroni_ServeHTTP fs' σ n [] [] =
       Negroni_ServeHTTP fs' (New ([onion 1] ++ [stopper body]) []).2
                         (New ([onion 1] ++ [stopper body]) []).1 [] []) ∧
  (∃ n σ,
     stack (length [1] + S (length [NilHandler; onion 4])) (onion <$> [1])
           (stopper body :: [NilHandler; onion 4]) [] = Ok (n, σ) ∧
     Negroni_ServeHTTP 2 σ n [] [] =
     exited (rev [1])
       (body {| tokens := [] ++ (Enter <$> [1]);
                rw := NewResponseWriter [] |})) ∧
  (∀ σ k w, Handler_ServeHTTP (handler (voidMiddleware σ).1) k w = Done w).
Proof.
  intros body.
  split; [reflexivity|]. split; [cbn; lia|]. split; [cbn; lia|].
  apply (serve_short_circuit [onion 1] [stopper body; NilHandler; onion 4]
           [onion 1] [NilHandler; onion 4] body [1] [] [] 4 2 [] []).
  - reflexivity.
  - cbn. lia.
  - cbn. lia.
Defined.

(** C3. Append after build.  A chain built from a sequence and then
    extended by [Use] serves every request exactly as the chain built at
    once from the extended sequence does (for [A; B] extended by [C], and
    for any sequence extended by any number of units), whatever heaps the
    two were built in. *)
Theorem append_after_build_equiv (hs us : list Handler) (σ0 σ0' : heap)
    (fuel : nat) :
  length hs + length us ≤ fuel →
  ∃ n σ,
    stack fuel hs us σ0 = Ok (n, σ) ∧
    ∀ fs tk s,
      Negroni_ServeHTTP fs σ n tk s =
      Negroni_ServeHTTP fs (New (hs ++ us) σ0').2 (New (hs ++ us) σ0').1 tk s.
Proof.
  intros Hfuel.
  destruct (stack_chain hs us σ0 fuel Hfuel)
    as (n & σ & cells & v & z & Hst & Hch & Hcells).
  exists n, σ. split; [exact Hst|]. intros fs tk s.
  destruct (New (hs ++ us) σ0') as [n' σ'] eqn:HN.
  destruct (New_chain _ _ _ _ HN) as (_ & cells' & v' & z' & Hcells' & Hch').
  cbn [fst snd].
  rewrite (Negroni_ServeHTTP_chain _ _ _ _ _ _ _ _ Hch), Hcells.
  rewrite (Negroni_ServeHTTP_chain _ _ _ _ _ _ _ _ Hch'), Hcells'.
  reflexivity.
Qed.

Lemma append_after_build_equiv_witness :
  let A := onion 1 in
  let B := stopper (fun w => Done (on_rw (WriteHeader 400) w)) in
  let C := onion 3 in
  length [A; B] + length [C] ≤ 3 ∧
  ∃ n σ,
    stack 3 [A; B] [C] [] = Ok (n, σ) ∧
    ∀ fs tk s,
      Negroni_ServeHTTP fs σ n tk s =
      Negroni_ServeHTTP fs (New ([A; B] ++ [C]) [zeroMiddleware]).2
                        (New ([A; B] ++ [C]) [zeroMiddleware]).1 tk s.
Proof.
  intros A B C. split; [cbn; lia|].
  apply (append_after_build_equiv [A; B] [C] [] [zeroMiddleware] 3).
  cbn. lia.
Defined.

(** C4, as amended.  On a stack made by [New] and [Use], the walk of
    [appendMiddleware] stops at the terminal node [v], recognised by its
    successor [z] having neither handler nor next.  When it stops at the
    head (no unit registered: the head is the terminal node, it holds the
    no-op handler and its next is the zero node), the head is overwritten
    in place with the new unit and a next that points at a terminal node
    made for the occasion.  Otherwise the next of the last registered node
    is redirected to one new node, which holds the unit and points at the
    terminal node found by the walk; that terminal node and every other
    node stay as they were. *)
Theorem appendMiddleware_splices (hs us : list Handler) (h : Handler)
    (σ0 : heap) (fuel : nat) :
  length hs + length us < fuel →
  ∃ n σ cells v z σ',
    stack fuel hs us σ0 = Ok (n, σ) ∧
    chain σ n cells v z ∧ cells.*2 = hs ++ us ∧
    append_walk fuel σ None (Some n) = Ok (last cells.*1, Some v) ∧
    isVoidMiddleware σ (Some v) = Ok true ∧
    σ !! z = Some zeroMiddleware ∧
    appendMiddleware fuel (Some n) h σ = Ok σ' ∧
    match last cells with
    | None =>
        v = n ∧
        σ !! n = Some {| handler := HandlerFunc (Some noop); next := Some z |} ∧
        σ' !! n = Some {| handler := h; next := Some (S (length σ)) |} ∧
        terminal σ' (S (length σ)) (length σ) ∧
        length σ' = length σ + 2 ∧
        ∀ l, l ≠ n → l < length σ → σ' !! l = σ !! l
    | Some (lp, hp) =>
        σ !! lp = Some {| handler := hp; next := Some v |} ∧
        σ' !! lp = Some {| handler := hp; next := Some (length σ) |} ∧
        σ' !! length σ = Some {| handler := h; next := Some v |} ∧
        terminal σ' v z ∧
        length σ' = length σ + 1 ∧
        ∀ l, l ≠ lp → l < length σ → σ' !! l = σ !! l
    end.
Proof.
  intros Hfuel.
  destruct (stack_chain hs us σ0 fuel)
    as (n & σ & cells & v & z & Hst & Hch & Hcells); [lia|].
  assert (Hlen : length cells = length hs + length us).
  { rewrite <- (length_fmap snd cells), Hcells, length_app. reflexivity. }
  pose proof Hch as (Hseg & Hterm & Hnd).
  assert (Hwalk : append_walk fuel σ None (Some n) = Ok (last cells.*1, Some v)).
  { rewrite (append_walk_lseg σ cells v z Hterm n None fuel Hseg) by lia.
    unfold last_or. destruct (last cells.*1); reflexivity. }
  destruct cells as [|[lp hp] cs _] using rev_ind.
  - exists n, σ, [], v, z, (append_at_head n h σ).
    split; [exact Hst|]. split; [exact Hch|]. split; [exact Hcells|].
    split; [exact Hwalk|]. split; [eapply isVoid_terminal; exact Hterm|].
    split; [apply Hterm|].
    split; [eapply appendMiddleware_empty; [exact Hch | lia]|].
    cbn [last]. cbn [lseg] in Hseg. subst v.
    pose proof (chain_append_at_head σ n n z h Hch) as (Hseg' & Hterm' & _).
    cbn [lseg fst snd] in Hseg'. destruct Hseg' as (_ & r & Hn' & ->).
    split; [reflexivity|]. split; [apply Hterm|]. split; [exact Hn'|].
    split; [exact Hterm'|]. split.
    + unfold append_at_head. rewrite length_app, length_insert. reflexivity.
    + intros l. apply append_at_head_other.
  - exists n, σ, (cs ++ [(lp, hp)]), v, z, (append_after lp hp h v σ).
    split; [exact Hst|]. split; [exact Hch|]. split; [exact Hcells|].
    split; [exact Hwalk|]. split; [eapply isVoid_terminal; exact Hterm|].
    split; [apply Hterm|].
    rewrite length_app in Hlen. cbn [length] in Hlen.
    split; [eapply appendMiddleware_after; [exact Hch | lia]|].
    rewrite last_snoc.
    pose proof (chain_append_after σ n cs lp hp v z h Hch) as (Hseg' & Hterm' & _).
    apply lseg_app in Hseg as (r & _ & Hlast). cbn [lseg fst snd] in Hlast.
    destruct Hlast as (<- & r0 & Hlp & ->).
    apply lseg_app in Hseg' as (r1 & _ & Hlast'). cbn [lseg fst snd] in Hlast'.
    destruct Hlast' as (<- & r2 & Hlp' & <- & r3 & Hnew & ->).
    split; [exact Hlp|]. split; [exact Hlp'|]. split; [exact Hnew|].
    split; [exact Hterm'|]. split.
    + unfold append_after. rewrite length_app, length_insert. reflexivity.
    + intros l. apply append_after_other.
Qed.

Lemma appendMiddleware_splices_witness :
  length [onion 1] + length [onion 2] < 3 ∧
  ∃ n σ cells v z σ',
    stack 3 [onion 1] [onion 2] [] = Ok (n, σ) ∧
    chain σ n cells v z ∧ cells.*2 = [onion 1] ++ [onion 2] ∧
    append_walk 3 σ None (Some n) = Ok (last cells.*1, Some v) ∧
    isVoidMiddleware σ (Some v) = Ok true ∧
    σ !! z = Some zeroMiddleware ∧
    appendMiddleware 3 (Some n) NilHandler σ = Ok σ' ∧
    match last cells with
    | None =>
        v = n ∧
        σ !! n = Some {| handler := HandlerFunc (Some noop); next := Some z |} ∧
        σ' !! n = Some {| handler := NilHandler; next := Some (S (length σ)) |} ∧
        terminal σ' (S (length σ)) (length σ) ∧
        length σ' = length σ + 2 ∧
        ∀ l, l ≠ n → l < length σ → σ' !! l = σ !! l
    | Some (lp, hp) =>
        σ !! lp = Some {| handler := hp; next := Some v |} ∧
        σ' !! lp = Some {| handler := hp; next := Some (length σ) |} ∧
        σ' !! length σ = Some {| handler := NilHandler; next := Some v |} ∧
        terminal σ' v z ∧
        length σ' = length σ + 1 ∧
        ∀ l, l ≠ lp → l < length σ → σ' !! l = σ !! l
    end.
Proof.
  split; [cbn; lia|].
  apply (appendMiddleware_splices [onion 1] [onion 2] NilHandler [] 3).
  cbn. lia.
Defined.

(** C4, as stated, fails: on the empty stack [New()] the walk stops at the
    head, and the head's handler is not unset, it is the no-op handler. *)
Lemma appendMiddleware_head_handler_set :
  let '(n, σ) := New [] [] in
  append_walk 1 σ None (Some n) = Ok (None, Some n) ∧
  ¬ (∃ m, σ !! n = Some m ∧ handler m = NilHandler).
Proof.
  cbn. split; [reflexivity|].
  intros (m & Hm & Hh). injection Hm as <-. discriminate Hh.
Qed.

(** C5. The chain invariant.  After [New] with any handlers and any
    sequence of [Use] calls, the nodes reached from the head by [next] are
    the registered nodes, in registration order and at pairwise different
    addresses, followed by one terminal node; the walk from the head visits
    exactly these, and the terminal test holds at the terminal node and at
    no registered node. *)
Theorem chain_invariant_preserved (hs us : list Handler) (σ0 : heap)
    (fuel : nat) :
  length hs + length us < fuel →
  ∃ n σ cells v z,
    stack fuel hs us σ0 = Ok (n, σ) ∧
    chain σ n cells v z ∧
    cells.*2 = hs ++ us ∧
    visited fuel σ (Some n) = Some <$> (cells.*1 ++ [v]) ∧
    isVoidMiddleware σ (Some v) = Ok true ∧
    Forall (fun l => isVoidMiddleware σ (Some l) = Ok false) cells.*1.
Proof.
  intros Hfuel.
  destruct (stack_chain hs us σ0 fuel)
    as (n & σ & cells & v & z & Hst & Hch & Hcells); [lia|].
  exists n, σ, cells, v, z.
  split; [exact Hst|]. split; [exact Hch|]. split; [exact Hcells|].
  destruct Hch as (Hseg & Hterm & Hnd).
  assert (Hlen : length cells = length hs + length us).
  { rewrite <- (length_fmap snd cells), Hcells, length_app. reflexivity. }
  split; [|split].
  - apply (visited_lseg σ cells v z Hterm n fuel Hseg). lia.
  - eapply isVoid_terminal. exact Hterm.
  - eapply isVoid_cells; eassumption.
Qed.

Lemma chain_invariant_preserved_witness :
  length [onion 1; NilHandler] + length [onion 3] < 4 ∧
  ∃ n σ cells v z,
    stack 4 [onion 1; NilHandler] [onion 3] [] = Ok (n, σ) ∧
    chain σ n cells v z ∧
    cells.*2 = [onion 1; NilHandler] ++ [onion 3] ∧
    visited 4 σ (Some n) = Some <$> (cells.*1 ++ [v]) ∧
    isVoidMiddleware σ (Some v) = Ok true ∧
    Forall (fun l => isVoidMiddleware σ (Some l) = Ok false) cells.*1.
Proof.
  split; [cbn; lia|].
  apply (chain_invariant_preserved [onion 1; NilHandler] [onion 3] [] 4).
  cbn. lia.
Defined.

(** C6. Enumeration.  On a stack made by [New] and [Use], before or
    between requests, [Handlers] returns a slice that shows exactly the
    handlers given to [New] followed by those given to [Use], in that
    order; its length is the number of registrations, and for the empty
    stack it shows nothing. *)
Theorem Handlers_registration_order (growslice : nat → nat)
    (hs us : list Handler) (σ0 : heap) (A : list (list Handler))
    (fuel : nat) :
  length hs + length us < fuel →
  ∃ n σ s st',
    stack fuel hs us σ0 = Ok (n, σ) ∧
    Handlers growslice fuel n {| nodes := σ; arrays := A |} = Ok (s, st') ∧
    slice_elems st' s = hs ++ us ∧
    len s = length hs + length us ∧
    length (slice_elems st' s) = length hs + length us.
Proof.
  intros Hfuel.
  destruct (stack_chain hs us σ0 fuel)
    as (n & σ & cells & v & z & Hst & Hch & Hcells); [lia|].
  assert (Hlen : length cells = length hs + length us).
  { rewrite <- (length_fmap snd cells), Hcells, length_app. reflexivity. }
  destruct Hch as (Hseg & Hterm & _).
  pose proof (Handlers_collect growslice fuel n {| nodes := σ; arrays := A |})
    as Hagree.
  cbn [nodes] in Hagree.
  rewrite (collect_lseg σ cells v z Hterm n fuel Hseg) in Hagree by lia.
  destruct Hagree as (s & st' & HH & _ & _ & _ & _ & Hel & Hl).
  exists n, σ, s, st'. split; [exact Hst|]. split; [exact HH|].
  change (slice_elems _ nilSlice) with (@nil Handler) in Hel.
  cbn [app len nilSlice Nat.add] in Hel, Hl.
  rewrite Hel, Hl, Hcells, length_app.
  repeat split; lia.
Qed.

Lemma Handlers_registration_order_witness :
  length [onion 1] + length [NilHandler; onion 3] < 4 ∧
  ∃ n σ s st',
    stack 4 [onion 1] [NilHandler; onion 3] [] = Ok (n, σ) ∧
    Handlers (fun c => 2 * c) 4 n {| nodes := σ; arrays := [] |} = Ok (s, st') ∧
    slice_elems st' s = [onion 1] ++ [NilHandler; onion 3] ∧
    len s = length [onion 1] + length [NilHandler; onion 3] ∧
    length (slice_elems st' s) =
      length [onion 1] + length [NilHandler; onion 3].
Proof.
  split; [cbn; lia|].
  apply (Handlers_registration_order (fun c => 2 * c)
           [onion 1] [NilHandler; onion 3] [] [] 4).
  cbn. lia.
Defined.

(** The empty stack of the test-suite: [New().Handlers()] has length 0. *)
Example Handlers_empty_stack :
  let '(n, σ) := New [] [] in
  Handlers (fun c => 2 * c) 1 n {| nodes := σ; arrays := [] |} =
  Ok (nilSlice, {| nodes := σ; arrays := [] |}).
Proof. reflexivity. Qed.








(** C8. Registration never fails and never validates.  Whatever units are
    given to [New] and [Use], nil and other placeholders included, the
    stack is built and every further [Use], [UseFunc], [UseHandler] and
    [UseHandlerFunc] returns normally, with any argument.  A placeholder
    unit fails only when a request reaches it: the request ends in a panic
    raised at that unit, after the entries of the units before it, and the
    chain does nothing to stop it. *)
Theorem registration_accepts_any_unit (hs us : list Handler)
    (ids : list nat) (bad : Handler) (rest : list Handler) (σ0 : heap)
    (fuel fs : nat) (tk : list token) (s : list sinkEvent) :
  hs ++ us = (onion <$> ids) ++ bad :: rest →
  bad ∈ placeholder_units →
  length hs + length us < fuel →
  length ids < fs →
  ∃ n σ,
    stack fuel hs us σ0 = Ok (n, σ) ∧
    (∀ h, ∃ σ', Use fuel n h σ = Ok σ') ∧
    (∀ f, ∃ σ', UseFunc fuel n f σ = Ok σ') ∧
    (∀ h, ∃ σ', UseHandler fuel n h σ = Ok σ') ∧
    (∀ f, ∃ σ', UseHandlerFunc fuel n f σ = Ok σ') ∧
    Negroni_ServeHTTP fs σ n tk s =
    Panicked {| tokens := tk ++ (Enter <$> ids);
                rw := NewResponseWriter s |}.
Proof.
  intros Hsplit Hbad Hfuel Hfs.
  destruct (stack_chain hs us σ0 fuel)
    as (n & σ & cells & v & z & Hst & Hch & Hcells); [lia|].
  assert (Hlen : length cells = length hs + length us).
  { rewrite <- (length_fmap snd cells), Hcells, length_app. reflexivity. }
  assert (HUse : ∀ h, ∃ σ', Use fuel n h σ = Ok σ').
  { intros h. destruct (Use_chain σ n cells v z h fuel Hch) as (σ' & _ & _ & _ & HU & _);
      [lia|]. eauto. }
  exists n, σ. split; [exact Hst|]. split; [exact HUse|].
  split; [intros f; apply HUse|]. split; [intros h; apply HUse|].
  split; [intros f; apply HUse|].
  rewrite (Negroni_ServeHTTP_chain _ _ _ _ _ _ _ _ Hch), Hcells, Hsplit.
  rewrite run_onion_prefix by lia.
  destruct (fs - length ids) as [|k] eqn:Hk; [lia|].
  cbn [run]. rewrite (placeholder_panics bad _ _ Hbad). reflexivity.
Qed.

Lemma registration_accepts_any_unit_witness :
  [onion 1] ++ [NilHandler; onion 3] = (onion <$> [1]) ++ NilHandler :: [onion 3] ∧
  NilHandler ∈ placeholder_units ∧
  length [onion 1] + length [NilHandler; onion 3] < 4 ∧
  length [1] < 2 ∧
  ∃ n σ,
    stack 4 [onion 1] [NilHandler; onion 3] [] = Ok (n, σ) ∧
    (∀ h, ∃ σ', Use 4 n h σ = Ok σ') ∧
    (∀ f, ∃ σ', UseFunc 4 n f σ = Ok σ') ∧
    (∀ h, ∃ σ', UseHandler 4 n h σ = Ok σ') ∧
    (∀ f, ∃ σ', UseHandlerFunc 4 n f σ = Ok σ') ∧
    Negroni_ServeHTTP 2 σ n [] [] =
    Panicked {| tokens := [] ++ (Enter <$> [1]);
                rw := NewResponseWriter [] |}.
Proof.
  split; [reflexivity|]. split; [apply list_elem_of_here|].
  split; [cbn; lia|]. split; [cbn; lia|].
  apply (registration_accepts_any_unit [onion 1] [NilHandler; onion 3]
           [1] NilHandler [onion 3] [] 4 2 [] []).
  - reflexivity.
  - apply list_elem_of_here.
  - cbn. lia.
  - cbn. lia.
Defined.

(** C9. [Handlers] only reads the chain and returns a slice of its own.
    A call that returns leaves every node as it was and every older array
    as it was; the array of the slice it returns was made during the call.
    Called again on any store with the same nodes (the store it left, or
    that store after the caller has overwritten cells of a returned slice)
    it returns a slice that shows the same sequence, again in an array of
    its own; overwriting a cell of the returned slice changes no node. *)
Theorem Handlers_read_only (growslice : nat → nat) (fuel : nat) (n : nat)
    (st st1 : Store) (s : slice) :
  Handlers growslice fuel n st = Ok (s, st1) →
  nodes st1 = nodes st ∧
  take (length (arrays st)) (arrays st1) = arrays st ∧
  (∀ a, arr s = Some a → length (arrays st) ≤ a) ∧
  (∀ st2, nodes st2 = nodes st1 →
     ∃ s2 st3,
       Handlers growslice fuel n st2 = Ok (s2, st3) ∧
       slice_elems st3 s2 = slice_elems st1 s ∧
       nodes st3 = nodes st ∧
       (∀ a, arr s2 = Some a → length (arrays st2) ≤ a)) ∧
  (∀ i x st2, slice_set s i x st1 = Ok st2 → nodes st2 = nodes st).
Proof.
  intros HH.
  pose proof (Handlers_collect growslice fuel n st) as Hagree.
  rewrite HH in Hagree.
  destruct (collect fuel (nodes st) (Some n)) as [l| |] eqn:Hcol;
    cbn [loop_agrees] in Hagree; try discriminate Hagree.
  destruct Hagree as (s' & st' & Heq & Hn & _ & Hown & Hfr & Hel & _).
  injection Heq as <- <-.
  change (slice_elems st nilSlice) with (@nil Handler) in Hel.
  cbn [app] in Hel.
  split; [exact Hn|]. split; [rewrite Hfr; apply take_ge; lia|].
  split; [exact Hown|]. split.
  - intros st2 Hn2.
    pose proof (Handlers_collect growslice fuel n st2) as Hagree2.
    rewrite Hn2, Hn, Hcol in Hagree2.
    destruct Hagree2 as (s2 & st3 & HH2 & Hn3 & _ & Hown2 & _ & Hel2 & _).
    change (slice_elems st2 nilSlice) with (@nil Handler) in Hel2.
    cbn [app] in Hel2.
    exists s2, st3. split; [exact HH2|]. split; [congruence|].
    split; [congruence|]. exact Hown2.
  - intros i x st2. unfold slice_set.
    destruct (arr s); [|discriminate].
    destruct (decide (i < len s)); [|discriminate].
    intros Hset. injection Hset as <-. cbn [nodes]. exact Hn.
Qed.

Lemma Handlers_read_only_witness :
  let σ := (New [onion 1; onion 2] []).2 in
  let n := (New [onion 1; onion 2] []).1 in
  let st := {| nodes := σ; arrays := [[NilHandler]] |} in
  let s := {| arr := Some 2; len := 2; cap := 2 |} in
  let st1 := {| nodes := σ;
                arrays := [[NilHandler]; [onion 1]; [onion 1; onion 2]] |} in
  Handlers (fun c => 2 * c) 3 n st = Ok (s, st1) ∧
  nodes st1 = nodes st ∧
  take (length (arrays st)) (arrays st1) = arrays st ∧
  (∀ a, arr s = Some a → length (arrays st) ≤ a) ∧
  (∀ st2, nodes st2 = nodes st1 →
     ∃ s2 st3,
       Handlers (fun c => 2 * c) 3 n st2 = Ok (s2, st3) ∧
       slice_elems st3 s2 = slice_elems st1 s ∧
       nodes st3 = nodes st ∧
       (∀ a, arr s2 = Some a → length (arrays st2) ≤ a)) ∧
  (∀ i x st2, slice_set s i x st1 = Ok st2 → nodes st2 = nodes st).
Proof.
  intros σ n st s st1. split; [reflexivity|].
  apply (Handlers_read_only (fun c => 2 * c) 3 n st st1 s). reflexivity.
Defined.

(** C10. The walks never dereference nil.  [isVoidMiddleware] answers
    false for a nil pointer.  On a stack made by [New] and [Use], every
    pointer at which the walks of [Handlers] and [appendMiddleware] test
    their condition is the address of a node whose next is the address of
    a node; the walk ends at the terminal node, and both functions return
    without a panic. *)
Theorem walks_never_dereference_nil (growslice : nat → nat)
    (hs us : list Handler) (σ0 : heap) (A : list (list Handler))
    (fuel : nat) :
  length hs + length us < fuel →
  (∀ σ, isVoidMiddleware σ None = Ok false) ∧
  ∃ n σ,
    stack fuel hs us σ0 = Ok (n, σ) ∧
    Forall (fun p => ∃ l m q nx, p = Some l ∧ σ !! l = Some m ∧
                                 next m = Some q ∧ σ !! q = Some nx)
           (visited fuel σ (Some n)) ∧
    (∃ v, last (visited fuel σ (Some n)) = Some (Some v) ∧
          isVoidMiddleware σ (Some v) = Ok true) ∧
    (∃ r, Handlers growslice fuel n {| nodes := σ; arrays := A |} = Ok r) ∧
    (∃ pc, append_walk fuel σ None (Some n) = Ok pc) ∧
    (∀ h, ∃ σ', appendMiddleware fuel (Some n) h σ = Ok σ').
Proof.
  intros Hfuel. split; [reflexivity|].
  destruct (stack_chain hs us σ0 fuel)
    as (n & σ & cells & v & z & Hst & Hch & Hcells); [lia|].
  assert (Hlen : length cells = length hs + length us).
  { rewrite <- (length_fmap snd cells), Hcells, length_app. reflexivity. }
  pose proof Hch as (Hseg & Hterm & _).
  exists n, σ. split; [exact Hst|].
  rewrite (visited_lseg σ cells v z Hterm n fuel Hseg) by lia.
  split; [|split; [|split; [|split]]].
  - rewrite fmap_app. apply Forall_app. split.
    + clear Hst Hch Hlen Hcells. revert n Hseg.
      induction cells as [|c cells IH]; intros n Hseg;
        cbn [fmap list_fmap]; [constructor|].
      cbn [lseg] in Hseg. destruct Hseg as (Hc & r & Hp & Hrest).
      constructor; [|eapply IH; exact Hrest].
      destruct (lseg_start_not_zero _ _ _ _ _ Hrest Hterm) as (nx & Hr & _).
      exists n, {| handler := c.2; next := Some r |}, r, nx.
      rewrite Hc. auto.
    + cbn [fmap list_fmap]. constructor; [|constructor].
      destruct Hterm as [Hv Hz]. eexists v, _, z, _.
      split; [reflexivity|]. split; [exact Hv|]. split; [reflexivity | exact Hz].
  - exists v. rewrite fmap_app. cbn [fmap list_fmap]. rewrite last_snoc.
    split; [reflexivity|]. eapply isVoid_terminal. exact Hterm.
  - pose proof (Handlers_collect growslice fuel n {| nodes := σ; arrays := A |})
      as Hagree.
    cbn [nodes] in Hagree.
    rewrite (collect_lseg σ cells v z Hterm n fuel Hseg) in Hagree by lia.
    destruct Hagree as (s & st' & HH & _). eauto.
  - rewrite (append_walk_lseg σ cells v z Hterm n None fuel Hseg) by lia. eauto.
  - intros h.
    destruct (Use_chain σ n cells v z h fuel Hch) as (σ' & _ & _ & _ & HU & _);
      [lia|]. exists σ'. exact HU.
Qed.

Lemma walks_never_dereference_nil_witness :
  length [onion 1; NilHandler] + length [onion 3] < 4 ∧
  (∀ σ, isVoidMiddleware σ None = Ok false) ∧
  ∃ n σ,
    stack 4 [onion 1; NilHandler] [onion 3] [] = Ok (n, σ) ∧
    Forall (fun p => ∃ l m q nx, p = Some l ∧ σ !! l = Some m ∧
                                 next m = Some q ∧ σ !! q = Some nx)
           (visited 4 σ (Some n)) ∧
    (∃ v, last (visited 4 σ (Some n)) = Some (Some v) ∧
          isVoidMiddleware σ (Some v) = Ok true) ∧
    (∃ r, Handlers (fun c => 2 * c) 4 n {| nodes := σ; arrays := [] |} = Ok r) ∧
    (∃ pc, append_walk 4 σ None (Some n) = Ok pc) ∧
    (∀ h, ∃ σ', appendMiddleware 4 (Some n) h σ = Ok σ').
Proof.
  split; [cbn; lia|].
  apply (walks_never_dereference_nil (fun c => 2 * c)
           [onion 1; NilHandler] [onion 3] [] [] 4).
  cbn. lia.
Defined.

(** * Further properties of the code *)

(** ** Plain handlers, repeated continuations, failures *)

Lemma andThen_ext o k1 k2 :
  (∀ w, k1 w = k2 w) → andThen o k1 = andThen o k2.
Proof. intros H. destruct o; cbn; [apply H | reflexivity | reflexivity]. Qed.

Lemma run_wrapped hs :
  ∀ fuel w, length hs < fuel → run fuel (Wrap <$> hs) w = serveAll hs w.
Proof.
  induction hs as [|h hs IH]; intros [|fuel] w Hfuel;
    cbn [length] in Hfuel; try lia; [reflexivity|].
  cbn [fmap list_fmap run Wrap Handler_ServeHTTP serveAll].
  apply andThen_ext. intros w'. apply IH. lia.
Qed.

(** X1. The empty stack.  A request served by [New()] returns at once:
    nothing is marked, nothing reaches the sink, the wrapper has no status
    and no bytes. *)
Theorem serve_empty_stack (σ0 : heap) (fuel : nat) (tk : list token)
    (s : list sinkEvent) :
  0 < fuel →
  Negroni_ServeHTTP fuel (New [] σ0).2 (New [] σ0).1 tk s =
  Done {| tokens := tk; rw := NewResponseWriter s |}.
Proof.
  intros Hfuel. destruct (New [] σ0) as [n σ] eqn:HN.
  destruct (New_chain _ _ _ _ HN) as (_ & cells & v & z & Hcells & Hch).
  cbn [fst snd]. rewrite (Negroni_ServeHTTP_chain _ _ _ _ _ _ _ _ Hch), Hcells.
  destruct fuel; [lia | reflexivity].
Qed.

Lemma serve_empty_stack_witness :
  0 < 1 ∧
  Negroni_ServeHTTP 1 (New [] [zeroMiddleware]).2 (New [] [zeroMiddleware]).1
    [Note "t"] [SinkHeader 1] =
  Done {| tokens := [Note "t"]; rw := NewResponseWriter [SinkHeader 1] |}.
Proof.
  split; [lia|]. apply (serve_empty_stack [zeroMiddleware] 1). lia.
Defined.

(** X2. A stack that did not come from [New].  When the head node has a
    nil next, as in the zero value [Negroni{}], every operation panics on
    its first step: [Use], [Handlers] and [ServeHTTP]. *)
Theorem zero_value_stack_panics (growslice : nat → nat) (σ : heap)
    (n : nat) (m : middleware) (h : Handler) (A : list (list Handler))
    (fuel : nat) (tk : list token) (s : list sinkEvent) :
  σ !! n = Some m → next m = None → 0 < fuel →
  Use fuel n h σ = Panic ∧
  Handlers growslice fuel n {| nodes := σ; arrays := A |} = Panic ∧
  Negroni_ServeHTTP fuel σ n tk s =
  Panicked {| tokens := tk; rw := NewResponseWriter s |}.
Proof.
  intros Hn Hnext Hfuel. destruct fuel as [|fuel]; [lia|].
  assert (Hvoid : isVoidMiddleware σ (Some n) = Panic).
  { unfold isVoidMiddleware, deref. rewrite Hn. cbn. rewrite Hnext. reflexivity. }
  split; [|split].
  - unfold Use, appendMiddleware. cbn [append_walk]. rewrite Hvoid. reflexivity.
  - unfold Handlers. cbn [Handlers_loop nodes]. rewrite Hvoid. reflexivity.
  - unfold Negroni_ServeHTTP, deref. rewrite Hn.
    cbn [middleware_ServeHTTP]. rewrite Hnext. reflexivity.
Qed.

Lemma zero_value_stack_panics_witness :
  [zeroMiddleware] !! 0 = Some zeroMiddleware ∧
  next zeroMiddleware = None ∧ 0 < 1 ∧
  Use 1 0 (onion 1) [zeroMiddleware] = Panic ∧
  Handlers (fun c => 2 * c) 1 0
    {| nodes := [zeroMiddleware]; arrays := [] |} = Panic ∧
  Negroni_ServeHTTP 1 [zeroMiddleware] 0 [] [] =
  Panicked {| tokens := []; rw := NewResponseWriter [] |}.
Proof.
  split; [reflexivity|]. split; [reflexivity|]. split; [lia|].
  apply (zero_value_stack_panics (fun c => 2 * c) [zeroMiddleware] 0
           zeroMiddleware (onion 1) [] 1 [] []).
  - reflexivity.
  - reflexivity.
  - lia.
Defined.

(** X3. Plain handlers.  A stack made only of plain [http.Handler]s
    (wrapped by [Wrap], as [UseHandler] and [UseHandlerFunc] do) runs every
    one of them, in registration order, each after the one before has
    returned; the first that panics ends the request. *)
Theorem wrapped_handlers_run_in_sequence (hs us : list httpHandler)
    (σ0 : heap) (fuel : nat) (tk : list token) (s : list sinkEvent) :
  length hs + length us < fuel →
  ∃ n σ,
    stack fuel (Wrap <$> hs) (Wrap <$> us) σ0 = Ok (n, σ) ∧
    Negroni_ServeHTTP fuel σ n tk s =
    serveAll (hs ++ us) {| tokens := tk; rw := NewResponseWriter s |}.
Proof.
  intros Hfuel.
  destruct (stack_chain (Wrap <$> hs) (Wrap <$> us) σ0 fuel)
    as (n & σ & cells & v & z & Hst & Hch & Hcells).
  { rewrite !length_fmap. lia. }
  exists n, σ. split; [exact Hst|].
  rewrite (Negroni_ServeHTTP_chain _ _ _ _ _ _ _ _ Hch), Hcells.
  rewrite <- fmap_app. apply run_wrapped. rewrite length_app. lia.
Qed.

Lemma wrapped_handlers_run_in_sequence_witness :
  let f := HttpHandlerFunc (Some (fun w => Done (emit (Note "f") w))) in
  let g := HttpHandlerFunc (Some (fun w => Done (on_rw (WriteHeader 200) w))) in
  length [f; NilHttpHandler] + length [g] < 4 ∧
  ∃ n σ,
    stack 4 (Wrap <$> [f; NilHttpHandler]) (Wrap <$> [g]) [] = Ok (n, σ) ∧
    Negroni_ServeHTTP 4 σ n [] [] =
    serveAll ([f; NilHttpHandler] ++ [g])
      {| tokens := []; rw := NewResponseWriter [] |}.
Proof.
  intros f g. split; [cbn; lia|].
  apply (wrapped_handlers_run_in_sequence [f; NilHttpHandler] [g] [] 4 [] []).
  cbn. lia.
Defined.

(** X4. No guard against a repeated continuation.  A unit that calls its
    continuation twice makes the rest of the chain run twice, one run after
    the other, on the same response writer. *)
Theorem continuation_twice_runs_rest_twice (hs us : list Handler)
    (ids : list nat) (σ0 : heap) (fuel : nat) (tk : list token)
    (s : list sinkEvent) :
  hs ++ us = twice :: (onion <$> ids) →
  S (length ids) < fuel →
  ∃ n σ,
    stack fuel hs us σ0 = Ok (n, σ) ∧
    Negroni_ServeHTTP fuel σ n tk s =
    Done {| tokens := tk ++ ((Enter <$> ids) ++ (Exit <$> rev ids)) ++
                      ((Enter <$> ids) ++ (Exit <$> rev ids));
            rw := NewResponseWriter s |}.
Proof.
  intros Hsplit Hfuel.
  assert (Hlen : length hs + length us = S (length ids)).
  { rewrite <- length_app, Hsplit. cbn [length]. rewrite length_fmap.
    reflexivity. }
  destruct (stack_chain hs us σ0 fuel)
    as (n & σ & cells & v & z & Hst & Hch & Hcells); [lia|].
  exists n, σ. split; [exact Hst|].
  rewrite (Negroni_ServeHTTP_chain _ _ _ _ _ _ _ _ Hch), Hcells, Hsplit.
  destruct fuel as [|fuel]; [lia|].
  cbn [run twice Handler_ServeHTTP].
  rewrite run_onions by lia. cbn [andThen].
  rewrite run_onions by lia. cbn [tokens rw].
  rewrite <- !app_assoc. reflexivity.
Qed.

Lemma continuation_twice_runs_rest_twice_witness :
  [twice] ++ [onion 1; onion 2] = twice :: (onion <$> [1; 2]) ∧
  S (length [1; 2]) < 4 ∧
  ∃ n σ,
    stack 4 [twice] [onion 1; onion 2] [] = Ok (n, σ) ∧
    Negroni_ServeHTTP 4 σ n [] [] =
    Done {| tokens := [] ++ ((Enter <$> [1; 2]) ++ (Exit <$> rev [1; 2])) ++
                      ((Enter <$> [1; 2]) ++ (Exit <$> rev [1; 2]));
            rw := NewResponseWriter [] |}.
Proof.
  split; [reflexivity|]. split; [cbn; lia|].
  apply (continuation_twice_runs_rest_twice [twice] [onion 1; onion 2]
           [1; 2] [] 4 [] []).
  - reflexivity.
  - cbn. lia.
Defined.

(** X5. Onion units wrap the rest of the chain.  Serving a chain that
    starts with onion units is serving the rest of the chain, built on its
    own, after their entries, and then running their exits if that
    returned. *)
Theorem onion_prefix_wraps_rest (hs us : list Handler) (ids : list nat)
    (rest : list Handler) (σ0 σ1 : heap) (fuel fs : nat) (tk : list token)
    (s : list sinkEvent) :
  hs ++ us = (onion <$> ids) ++ rest →
  length hs + length us ≤ fuel →
  ∃ n σ,
    stack fuel hs us σ0 = Ok (n, σ) ∧
    Negroni_ServeHTTP (length ids + fs) σ n tk s =
    exited (rev ids)
      (Negroni_ServeHTTP fs (New rest σ1).2 (New rest σ1).1
         (tk ++ (Enter <$> ids)) s).
Proof.
  intros Hsplit Hfuel.
  destruct (stack_chain hs us σ0 fuel Hfuel)
    as (n & σ & cells & v & z & Hst & Hch & Hcells).
  destruct (New rest σ1) as [n' σ'] eqn:HN.
  destruct (New_chain _ _ _ _ HN) as (_ & cells' & v' & z' & Hcells' & Hch').
  cbn [fst snd]. exists n, σ. split; [exact Hst|].
  rewrite (Negroni_ServeHTTP_chain _ _ _ _ _ _ _ _ Hch), Hcells, Hsplit.
  rewrite (Negroni_ServeHTTP_chain _ _ _ _ _ _ _ _ Hch'), Hcells'.
  rewrite run_onion_prefix by lia.
  replace (length ids + fs - length ids) with fs by lia. reflexivity.
Qed.

Lemma onion_prefix_wraps_rest_witness :
  let stop := stopper (fun w => Done (on_rw (WriteHeader 404) w)) in
  [onion 1] ++ [onion 2; stop; onion 4] = (onion <$> [1; 2]) ++ [stop; onion 4] ∧
  length [onion 1] + length [onion 2; stop; onion 4] ≤ 4 ∧
  ∃ n σ,
    stack 4 [onion 1] [onion 2; stop; onion 4] [] = Ok (n, σ) ∧
    Negroni_ServeHTTP (length [1; 2] + 1) σ n [] [] =
    exited (rev [1; 2])
      (Negroni_ServeHTTP 1 (New [stop; onion 4] []).2 (New [stop; onion 4] []).1
         ([] ++ (Enter <$> [1; 2])) []).
Proof.
  intros stop. split; [reflexivity|]. split; [cbn; lia|].
  apply (onion_prefix_wraps_rest [onion 1] [onion 2; stop; onion 4] [1; 2]
           [stop; onion 4] [] [] 4 1 [] []).
  - reflexivity.
  - cbn. lia.
Defined.

(** X6. No recovery.  When the rest of the chain panics, the request ends
    in that panic and none of the units in front runs the code it placed
    after its continuation call. *)
Theorem panic_skips_upward_pass (hs us : list Handler) (ids : list nat)
    (rest : list Handler) (σ0 σ1 : heap) (fuel fs : nat) (tk : list token)
    (s : list sinkEvent) (w : World) :
  hs ++ us = (onion <$> ids) ++ rest →
  length hs + length us ≤ fuel →
  Negroni_ServeHTTP fs (New rest σ1).2 (New rest σ1).1
    (tk ++ (Enter <$> ids)) s = Panicked w →
  ∃ n σ,
    stack fuel hs us σ0 = Ok (n, σ) ∧
    Negroni_ServeHTTP (length ids + fs) σ n tk s = Panicked w.
Proof.
  intros Hsplit Hfuel Hw.
  destruct (stack_chain hs us σ0 fuel Hfuel)
    as (n & σ & cells & v & z & Hst & Hch & Hcells).
  destruct (New rest σ1) as [n' σ'] eqn:HN.
  destruct (New_chain _ _ _ _ HN) as (_ & cells' & v' & z' & Hcells' & Hch').
  cbn [fst snd] in Hw. exists n, σ. split; [exact Hst|].
  rewrite (Negroni_ServeHTTP_chain _ _ _ _ _ _ _ _ Hch'), Hcells' in Hw.
  rewrite (Negroni_ServeHTTP_chain _ _ _ _ _ _ _ _ Hch), Hcells, Hsplit.
  rewrite run_onion_prefix by lia.
  replace (length ids + fs - length ids) with fs by lia.
  unfold entered. cbn [tokens rw]. rewrite Hw. reflexivity.
Qed.

Lemma panic_skips_upward_pass_witness :
  let boom := HandlerFunc (Some (fun next w =>
                andThen (next (emit (Note "in") w))
                        (fun w' => Panicked (emit (Note "boom") w')))) in
  let w := {| tokens := [Enter 1; Enter 2; Note "in"; Enter 4; Exit 4; Note "boom"];
              rw := NewResponseWriter [] |} in
  [onion 1] ++ [onion 2; boom; onion 4] = (onion <$> [1; 2]) ++ [boom; onion 4] ∧
  length [onion 1] + length [onion 2; boom; onion 4] ≤ 4 ∧
  Negroni_ServeHTTP 3 (New [boom; onion 4] []).2 (New [boom; onion 4] []).1
    ([] ++ (Enter <$> [1; 2])) [] = Panicked w ∧
  ∃ n σ,
    stack 4 [onion 1] [onion 2; boom; onion 4] [] = Ok (n, σ) ∧
    Negroni_ServeHTTP (length [1; 2] + 3) σ n [] [] = Panicked w.
Proof.
  intros boom w. split; [reflexivity|]. split; [cbn; lia|].
  split; [reflexivity|].
  apply (panic_skips_upward_pass [onion 1] [onion 2; boom; onion 4] [1; 2]
           [boom; onion 4] [] [] 4 3 [] [] w).
  - reflexivity.
  - cbn. lia.
  - reflexivity.
Defined.

(** ** Allocation and separation *)

(** [build] only extends the heap, by one node per handler and one zero
    node, and the chain it makes lives in the new part. *)
Lemma build_fresh hs :
  ∀ σ m σ1, build hs σ = (m, σ1) →
    ∃ ext, σ1 = σ ++ ext ∧ length ext = S (length hs) ∧
    ∃ cells v z, cells.*2 = hs ∧
      chain (σ1 ++ [m]) (length σ1) cells v z ∧
      Forall (fun a => length σ ≤ a) (addrs cells v z).
Proof.
  induction hs as [|h0 rest IH]; intros σ m σ1 Hb.
  - cbn in Hb. injection Hb as <- <-.
    exists [zeroMiddleware]. split; [reflexivity|]. split; [reflexivity|].
    exists [], (S (length σ)), (length σ). split; [reflexivity|].
    rewrite length_app; cbn [length].
    replace (length σ + 1) with (S (length σ)) by lia.
    split; [apply chain_void_alloc|].
    unfold addrs. cbn. repeat constructor; lia.
  - rewrite build_cons in Hb.
    destruct (build rest σ) as [nxt σ'] eqn:Hrest.
    cbn in Hb. injection Hb as <- <-.
    destruct (IH _ _ _ Hrest)
      as (ext & -> & Hext & cells & v & z & Hhs & Hch & Hfresh).
    exists (ext ++ [nxt]). split; [rewrite app_assoc; reflexivity|].
    split; [rewrite length_app; cbn [length]; lia|].
    exists ((length ((σ ++ ext) ++ [nxt]), h0) :: cells), v, z.
    split; [cbn; congruence|].
    pose proof (chain_bound _ _ _ _ _ Hch) as Hbound.
    destruct Hch as (Hseg & Hterm & Hnd).
    split; [split; [|split]|].
    + cbn [lseg fst snd]. split; [reflexivity|].
      exists (length (σ ++ ext)). split.
      * apply list_lookup_middle. reflexivity.
      * apply lseg_ext. exact Hseg.
    + apply terminal_ext. exact Hterm.
    + cbn [fmap list_fmap fst app]. apply NoDup_cons. split; [|exact Hnd].
      intros Hin. rewrite Forall_forall in Hbound. apply Hbound in Hin. lia.
    + unfold addrs in *. cbn [fmap list_fmap fst app]. constructor; [|exact Hfresh].
      rewrite !length_app. lia.
Qed.

Lemma New_fresh hs σ0 n σ :
  New hs σ0 = (n, σ) →
  ∃ ext, σ = σ0 ++ ext ∧ length ext = length hs + 2 ∧
         n = length σ0 + length hs + 1 ∧
  ∃ cells v z, cells.*2 = hs ∧ chain σ n cells v z ∧
               Forall (fun a => length σ0 ≤ a) (addrs cells v z).
Proof.
  unfold New. destruct (build hs σ0) as [m σ1] eqn:Hb. unfold alloc.
  intros H. injection H as <- <-.
  destruct (build_fresh _ _ _ _ Hb)
    as (ext & -> & Hext & cells & v & z & Hhs & Hch & Hfresh).
  exists (ext ++ [m]). split; [rewrite app_assoc; reflexivity|].
  split; [rewrite length_app; cbn [length]; lia|].
  split; [rewrite length_app; lia|]. eauto 10.
Qed.

Lemma chain_frame_ext σ k x ext n cells v z :
  k ∉ addrs cells v z → chain σ n cells v z →
  chain (<[k := x]> σ ++ ext) n cells v z.
Proof.
  unfold addrs. intros Hk (Hseg & Hterm & Hnd).
  apply not_elem_of_app in Hk as [Hk1 Hk2].
  apply not_elem_of_cons in Hk2 as [Hkv Hk2].
  apply not_elem_of_cons in Hk2 as [Hkz _].
  split; [|split; [|exact Hnd]].
  - apply lseg_ext. apply lseg_frame; assumption.
  - apply terminal_ext. apply terminal_frame; assumption.
Qed.

Lemma chain_ext σ ext n cells v z :
  chain σ n cells v z → chain (σ ++ ext) n cells v z.
Proof.
  intros (Hseg & Hterm & Hnd). split; [|split; [|exact Hnd]].
  - apply lseg_ext. exact Hseg.
  - apply terminal_ext. exact Hterm.
Qed.

(** One [Use] on a chain leaves every chain that shares no address with it
    as it was, and the two still share no address afterwards. *)
Lemma Use_frame σ n cells v z h fuel :
  chain σ n cells v z → length cells < fuel →
  ∃ σ' cells' v' z',
    Use fuel n h σ = Ok σ' ∧ chain σ' n cells' v' z' ∧
    cells'.*2 = cells.*2 ++ [h] ∧
    ∀ n2 cells2 v2 z2,
      chain σ n2 cells2 v2 z2 →
      (∀ a, a ∈ addrs cells v z → a ∉ addrs cells2 v2 z2) →
      chain σ' n2 cells2 v2 z2 ∧
      (∀ a, a ∈ addrs cells' v' z' → a ∉ addrs cells2 v2 z2).
Proof.
  intros Hch Hfuel. unfold Use.
  destruct cells as [|[lp hp] cs _] using rev_ind.
  - exists (append_at_head n h σ), [(n, h)], (S (length σ)), (length σ).
    split; [eapply appendMiddleware_empty; [exact Hch | lia]|].
    split; [eapply chain_append_at_head; exact Hch|].
    split; [reflexivity|].
    intros n2 cells2 v2 z2 Hch2 Hdisj.
    pose proof (chain_bound _ _ _ _ _ Hch2) as Hb2.
    rewrite Forall_forall in Hb2.
    destruct Hch as (Hseg & _ & _). cbn [lseg] in Hseg. subst v.
    assert (Hn : n ∉ addrs cells2 v2 z2).
    { apply Hdisj. unfold addrs. cbn. apply list_elem_of_here. }
    split.
    + unfold append_at_head. apply chain_frame_ext; assumption.
    + intros a Ha. unfold addrs in Ha. cbn in Ha.
      rewrite !elem_of_cons in Ha.
      destruct Ha as [->|[->|[->|Ha]]].
      * exact Hn.
      * intros Hin. apply Hb2 in Hin. lia.
      * intros Hin. apply Hb2 in Hin. lia.
      * apply elem_of_nil in Ha. destruct Ha.
  - rewrite length_app in Hfuel. cbn [length] in Hfuel.
    exists (append_after lp hp h v σ), (cs ++ [(lp, hp); (length σ, h)]), v, z.
    split; [eapply appendMiddleware_after; [exact Hch | lia]|].
    split; [apply chain_append_after; exact Hch|].
    split.
    { rewrite !fmap_app. cbn [fmap list_fmap snd].
      rewrite <- app_assoc. reflexivity. }
    intros n2 cells2 v2 z2 Hch2 Hdisj.
    pose proof (chain_bound _ _ _ _ _ Hch2) as Hb2.
    rewrite Forall_forall in Hb2.
    assert (Hlp : lp ∉ addrs cells2 v2 z2).
    { apply Hdisj. unfold addrs. rewrite fmap_app. cbn [fmap list_fmap fst].
      rewrite !elem_of_app. left. right. apply list_elem_of_here. }
    split.
    + unfold append_after. apply chain_frame_ext; assumption.
    + intros a Ha. unfold addrs in Ha. rewrite fmap_app in Ha.
      cbn [fmap list_fmap fst] in Ha.
      rewrite !elem_of_app, !elem_of_cons in Ha.
      destruct Ha as [[Ha|[->|[->|Ha]]]|Ha].
      * apply Hdisj. unfold addrs. rewrite fmap_app, !elem_of_app. auto.
      * exact Hlp.
      * intros Hin. apply Hb2 in Hin. lia.
      * apply elem_of_nil in Ha. destruct Ha.
      * apply Hdisj. unfold addrs. rewrite !elem_of_app, !elem_of_cons.
        right. exact Ha.
Qed.

Lemma Uses_frame us :
  ∀ σ n cells v z fuel n2 cells2 v2 z2,
    chain σ n cells v z → length cells + length us ≤ fuel →
    chain σ n2 cells2 v2 z2 →
    (∀ a, a ∈ addrs cells v z → a ∉ addrs cells2 v2 z2) →
    ∃ σ' cells' v' z',
      Uses fuel n us σ = Ok σ' ∧ chain σ' n cells' v' z' ∧
      cells'.*2 = cells.*2 ++ us ∧
      chain σ' n2 cells2 v2 z2 ∧
      (∀ a, a ∈ addrs cells' v' z' → a ∉ addrs cells2 v2 z2).
Proof.
  induction us as [|u us IH];
    intros σ n cells v z fuel n2 cells2 v2 z2 Hch Hfuel Hch2 Hdisj.
  - exists σ, cells, v, z. cbn [Uses]. rewrite app_nil_r. auto.
  - cbn [length] in Hfuel. cbn [Uses].
    destruct (Use_frame σ n cells v z u fuel Hch)
      as (σ1 & c1 & v1 & z1 & HU & Hch1 & Hc1 & Hfr); [lia|].
    destruct (Hfr _ _ _ _ Hch2 Hdisj) as [Hch2' Hdisj'].
    rewrite HU. cbn [mbind result_bind].
    assert (Hlen : length c1 = S (length cells)).
    { rewrite <- (length_fmap snd c1), Hc1, length_app, length_fmap.
      cbn [length]. lia. }
    destruct (IH σ1 n c1 v1 z1 fuel n2 cells2 v2 z2 Hch1)
      as (σ' & c' & v' & z' & HUs & Hch' & Hc' & Hch2'' & Hdisj'');
      [lia | exact Hch2' | exact Hdisj' |].
    exists σ', c', v', z'. split; [exact HUs|]. split; [exact Hch'|].
    split; [rewrite Hc', Hc1, <- app_assoc; reflexivity|]. auto.
Qed.

Lemma Handlers_chain growslice σ n cells v z fuel A :
  chain σ n cells v z → length cells < fuel →
  ∃ s st',
    Handlers growslice fuel n {| nodes := σ; arrays := A |} = Ok (s, st') ∧
    slice_elems st' s = cells.*2.
Proof.
  intros (Hseg & Hterm & _) Hfuel.
  pose proof (Handlers_collect growslice fuel n {| nodes := σ; arrays := A |})
    as Hagree.
  cbn [nodes] in Hagree.
  rewrite (collect_lseg σ cells v z Hterm n fuel Hseg) in Hagree by lia.
  destruct Hagree as (s & st' & HH & _ & _ & _ & _ & Hel & _).
  change (slice_elems _ nilSlice) with (@nil Handler) in Hel.
  exists s, st'. split; [exact HH | exact Hel].
Qed.

(** X7. Stacks do not interfere.  Two stacks made one after the other in
    the same heap, each then extended by [Use], serve requests and list
    their handlers as if each had been built alone from its own handlers:
    making the second stack and registering on either one changes nothing
    the other can observe. *)
Theorem two_stacks_independent (growslice : nat → nat)
    (hsA usA hsB usB : list Handler) (σ0 σ1 : heap)
    (A : list (list Handler)) (fuel : nat) :
  length hsA + length usA < fuel →
  length hsB + length usB < fuel →
  ∃ a b σ,
    two_stacks fuel hsA usA hsB usB σ0 = Ok (a, b, σ) ∧
    (∀ fs tk s,
       Negroni_ServeHTTP fs σ a tk s =
       Negroni_ServeHTTP fs (New (hsA ++ usA) σ1).2 (New (hsA ++ usA) σ1).1 tk s) ∧
    (∀ fs tk s,
       Negroni_ServeHTTP fs σ b tk s =
       Negroni_ServeHTTP fs (New (hsB ++ usB) σ1).2 (New (hsB ++ usB) σ1).1 tk s) ∧
    (∃ sA stA,
       Handlers growslice fuel a {| nodes := σ; arrays := A |} = Ok (sA, stA) ∧
       slice_elems stA sA = hsA ++ usA) ∧
    (∃ sB stB,
       Handlers growslice fuel b {| nodes := σ; arrays := A |} = Ok (sB, stB) ∧
       slice_elems stB sB = hsB ++ usB).
Proof.
  intros HfA HfB. unfold two_stacks.
  destruct (New hsA σ0) as [a σa] eqn:HNA.
  destruct (New_fresh _ _ _ _ HNA)
    as (extA & _ & _ & _ & cA & vA & zA & HcA & HchA & _).
  destruct (New hsB σa) as [b σb] eqn:HNB.
  destruct (New_fresh _ _ _ _ HNB)
    as (extB & -> & _ & _ & cB & vB & zB & HcB & HchB & HfreshB).
  pose proof (chain_bound _ _ _ _ _ HchA) as HbA.
  rewrite Forall_forall in HbA, HfreshB.
  assert (HdisjAB : ∀ x, x ∈ addrs cA vA zA → x ∉ addrs cB vB zB).
  { intros x HxA HxB. apply HbA in HxA. apply HfreshB in HxB. lia. }
  assert (HlenA : length cA = length hsA).
  { rewrite <- (length_fmap snd cA), HcA. reflexivity. }
  assert (HlenB : length cB = length hsB).
  { rewrite <- (length_fmap snd cB), HcB. reflexivity. }
  destruct (Uses_frame usA (σa ++ extB) a cA vA zA fuel b cB vB zB
              (chain_ext _ extB _ _ _ _ HchA))
    as (σ3 & cA' & vA' & zA' & HUA & HchA' & HcA' & HchB' & HdisjA'B);
    [lia | exact HchB | exact HdisjAB |].
  assert (HdisjBA' : ∀ x, x ∈ addrs cB vB zB → x ∉ addrs cA' vA' zA').
  { intros x HxB HxA. exact (HdisjA'B x HxA HxB). }
  destruct (Uses_frame usB σ3 b cB vB zB fuel a cA' vA' zA' HchB')
    as (σ4 & cB' & vB' & zB' & HUB & HchB'' & HcB' & HchA'' & _);
    [lia | exact HchA' | exact HdisjBA' |].
  rewrite HUA. cbn [mbind result_bind]. rewrite HUB. cbn [mbind result_bind].
  exists a, b, σ4. split; [reflexivity|].
  assert (HcA2 : cA'.*2 = hsA ++ usA) by (rewrite HcA', HcA; reflexivity).
  assert (HcB2 : cB'.*2 = hsB ++ usB) by (rewrite HcB', HcB; reflexivity).
  split; [|split; [|split]].
  - intros fs tk s.
    destruct (New (hsA ++ usA) σ1) as [n' σ'] eqn:HN.
    destruct (New_chain _ _ _ _ HN) as (_ & c' & v' & z' & Hc' & Hch').
    cbn [fst snd].
    rewrite (Negroni_ServeHTTP_chain _ _ _ _ _ _ _ _ HchA''), HcA2.
    rewrite (Negroni_ServeHTTP_chain _ _ _ _ _ _ _ _ Hch'), Hc'. reflexivity.
  - intros fs tk s.
    destruct (New (hsB ++ usB) σ1) as [n' σ'] eqn:HN.
    destruct (New_chain _ _ _ _ HN) as (_ & c' & v' & z' & Hc' & Hch').
    cbn [fst snd].
    rewrite (Negroni_ServeHTTP_chain _ _ _ _ _ _ _ _ HchB''), HcB2.
    rewrite (Negroni_ServeHTTP_chain _ _ _ _ _ _ _ _ Hch'), Hc'. reflexivity.
  - destruct (Handlers_chain growslice σ4 a cA' vA' zA' fuel A HchA'')
      as (s & st' & HH & Hel).
    { rewrite <- (length_fmap snd cA'), HcA2, length_app. lia. }
    exists s, st'. split; [exact HH|]. rewrite Hel. exact HcA2.
  - destruct (Handlers_chain growslice σ4 b cB' vB' zB' fuel A HchB'')
      as (s & st' & HH & Hel).
    { rewrite <- (length_fmap snd cB'), HcB2, length_app. lia. }
    exists s, st'. split; [exact HH|]. rewrite Hel. exact HcB2.
Qed.

Lemma two_stacks_independent_witness :
  length [onion 1] + length [onion 2] < 3 ∧
  length (@nil Handler) + length [NilHandler; onion 4] < 3 ∧
  ∃ a b σ,
    two_stacks 3 [onion 1] [onion 2] [] [NilHandler; onion 4] [] = Ok (a, b, σ) ∧
    (∀ fs tk s,
       Negroni_ServeHTTP fs σ a tk s =
       Negroni_ServeHTTP fs (New ([onion 1] ++ [onion 2]) []).2
         (New ([onion 1] ++ [onion 2]) []).1 tk s) ∧
    (∀ fs tk s,
       Negroni_ServeHTTP fs σ b tk s =
       Negroni_ServeHTTP fs (New ([] ++ [NilHandler; onion 4]) []).2
         (New ([] ++ [NilHandler; onion 4]) []).1 tk s) ∧
    (∃ sA stA,
       Handlers (fun c => 2 * c) 3 a {| nodes := σ; arrays := [] |} = Ok (sA, stA) ∧
       slice_elems stA sA = [onion 1] ++ [onion 2]) ∧
    (∃ sB stB,
       Handlers (fun c => 2 * c) 3 b {| nodes := σ; arrays := [] |} = Ok (sB, stB) ∧
       slice_elems stB sB = [] ++ [NilHandler; onion 4]).
Proof.
  split; [cbn; lia|]. split; [cbn; lia|].
  apply (two_stacks_independent (fun c => 2 * c) [onion 1] [onion 2] []
           [NilHandler; onion 4] [] [] [] 3).
  - cbn. lia.
  - cbn. lia.
Defined.

(** X8. What [New] allocates.  [New] never touches a node that exists:
    the heap it returns is the one it was given followed by one node per
    handler, a zero node and the head, which is the last node made. *)
Theorem New_extends_heap (hs : list Handler) (σ0 : heap) :
  take (length σ0) (New hs σ0).2 = σ0 ∧
  length (New hs σ0).2 = length σ0 + length hs + 2 ∧
  (New hs σ0).1 = length σ0 + length hs + 1.
Proof.
  destruct (New hs σ0) as [n σ] eqn:HN.
  destruct (New_fresh _ _ _ _ HN) as (ext & -> & Hext & -> & _).
  cbn [fst snd]. split; [apply take_app_length|].
  split; [rewrite length_app; lia | reflexivity].
Qed.

(** * The fork with a request context *)

(** ** The chain lemmas, over the handlers of the fork *)

Section CtxFacts.

Import Ctx.

Variable Context : Type.

Implicit Types (σ : list (middleware Context)).
Implicit Types (cells c cs : list (nat * Handler Context)).
Implicit Types (h hp u : Handler Context) (hs us rest : list (Handler Context)).
Implicit Types (m x : middleware Context).

Lemma lseg_app_ctx σ p c1 c2 q :
  lseg σ p (c1 ++ c2) q ↔ ∃ r, lseg σ p c1 r ∧ lseg σ r c2 q.
Proof.
  revert p. induction c1 as [|c c1 IH]; intros p; cbn [lseg fmap list_fmap].
  - split.
    + intros H. exists p. split; [reflexivity | exact H].
    + intros (r & -> & H). exact H.
  - split.
    + intros (Hc & r & Hp & Hrest). apply IH in Hrest as (r' & H1 & H2).
      exists r'. split; [|exact H2]. split; [exact Hc|]. exists r. auto.
    + intros (r' & (Hc & r & Hp & H1) & H2). split; [exact Hc|].
      exists r. split; [exact Hp|]. apply IH. exists r'. auto.
Qed.

Lemma lseg_ext_ctx σ σ' p cells q :
  lseg σ p cells q → lseg (σ ++ σ') p cells q.
Proof.
  revert p. induction cells as [|c cells IH]; intros p; cbn [lseg fmap list_fmap]; [auto|].
  intros (Hc & r & Hp & Hrest). split; [exact Hc|]. exists r. split.
  - apply lookup_app_l_Some. exact Hp.
  - apply IH. exact Hrest.
Qed.

Lemma lseg_frame_ctx σ k x p cells q :
  k ∉ cells.*1 → lseg σ p cells q → lseg (<[k := x]> σ) p cells q.
Proof.
  revert p. induction cells as [|c cells IH]; intros p Hk; cbn [lseg fmap list_fmap]; [auto|].
  intros (Hc & r & Hp & Hrest). cbn [fmap list_fmap] in Hk.
  apply not_elem_of_cons in Hk as [Hne Hk].
  split; [exact Hc|]. exists r. split.
  - rewrite list_lookup_insert_ne; [exact Hp | congruence].
  - apply IH; assumption.
Qed.

Lemma lseg_bound_ctx σ p cells q :
  lseg σ p cells q → Forall (fun l => l < length σ) cells.*1.
Proof.
  revert p. induction cells as [|c cells IH]; intros p; cbn [lseg fmap list_fmap].
  - constructor.
  - intros (Hc & r & Hp & Hrest). constructor.
    + rewrite Hc. eapply lookup_lt_Some. exact Hp.
    + eapply IH. exact Hrest.
Qed.

Lemma terminal_ext_ctx σ σ' v z : terminal σ v z → terminal (σ ++ σ') v z.
Proof.
  intros [Hv Hz]. unfold terminal.
  split; apply lookup_app_l_Some; assumption.
Qed.

Lemma terminal_frame_ctx σ k x v z :
  k ≠ v → k ≠ z → terminal σ v z → terminal (<[k := x]> σ) v z.
Proof.
  intros Hv Hz [H1 H2]. unfold terminal.
  rewrite !list_lookup_insert_ne by assumption. auto.
Qed.

Lemma chain_bound_ctx σ n cells v z :
  chain σ n cells v z → Forall (fun l => l < length σ) (cells.*1 ++ [v; z]).
Proof.
  intros (Hseg & [Hv Hz] & _). apply Forall_app. split.
  - eapply lseg_bound_ctx. exact Hseg.
  - repeat constructor; eapply lookup_lt_Some; eassumption.
Qed.

Lemma isVoid_terminal_ctx σ v z :
  terminal σ v z → isVoidMiddleware σ (Some v) = Ok true.
Proof.
  intros [Hv Hz]. unfold isVoidMiddleware, deref; cbn.
  rewrite Hv; cbn. rewrite Hz; cbn. reflexivity.
Qed.

Lemma lseg_start_not_zero_ctx σ r cells v z :
  lseg σ r cells v → terminal σ v z →
  ∃ nx, σ !! r = Some nx ∧
        is_nil_handler (handler nx) && is_nil_ptr (next nx) = false.
Proof.
  intros Hseg [Hv Hz]. destruct cells as [|c cells]; cbn [lseg] in Hseg.
  - subst r. eexists. split; [exact Hv | reflexivity].
  - destruct Hseg as (_ & r' & Hr & _). eexists. split; [exact Hr|].
    cbn. apply andb_false_r.
Qed.

Lemma isVoid_cell_ctx σ p h r cells v z :
  σ !! p = Some {| handler := h; next := Some r |} →
  lseg σ r cells v → terminal σ v z →
  isVoidMiddleware σ (Some p) = Ok false.
Proof.
  intros Hp Hseg Hterm.
  destruct (lseg_start_not_zero_ctx _ _ _ _ _ Hseg Hterm) as (nx & Hr & Hnz).
  unfold isVoidMiddleware, deref; cbn. rewrite Hp; cbn. rewrite Hr; cbn.
  rewrite Hnz. reflexivity.
Qed.

Lemma append_walk_lseg_ctx σ cells v z :
  terminal σ v z →
  ∀ p pre fuel, lseg σ p cells v → length cells < fuel →
    append_walk fuel σ pre (Some p) = Ok (last_or pre cells.*1, Some v).
Proof.
  intros Hterm. induction cells as [|c cells IH]; intros p pre fuel Hseg Hfuel;
    destruct fuel as [|fuel]; cbn [length] in Hfuel; try lia;
    cbn [lseg] in Hseg; cbn [append_walk].
  - subst p. rewrite (isVoid_terminal_ctx _ _ _ Hterm). reflexivity.
  - destruct Hseg as (Hc & r & Hp & Hrest).
    rewrite (isVoid_cell_ctx _ _ _ _ _ _ _ Hp Hrest Hterm). cbn.
    unfold deref. rewrite Hp. cbn.
    rewrite (IH r (Some p) fuel Hrest) by lia.
    unfold last_or. cbn [fmap list_fmap]. rewrite last_cons, Hc.
    destruct (last cells.*1); reflexivity.
Qed.

Lemma serve_lseg_ctx σ cells v z :
  terminal σ v z →
  ∀ p m fuel, lseg σ p cells v → σ !! p = Some m →
    middleware_ServeHTTPC fuel σ m = run fuel cells.*2.
Proof.
  intros Hterm. induction cells as [|c cells IH]; intros p m fuel Hseg Hm;
    destruct fuel as [|fuel]; try reflexivity;
    cbn [lseg] in Hseg; cbn [middleware_ServeHTTPC run fmap list_fmap].
  - subst p. destruct Hterm as [Hv Hz]. rewrite Hv in Hm.
    injection Hm as <-. unfold deref; cbn [next handler]. rewrite Hz.
    reflexivity.
  - destruct Hseg as (Hc & r & Hp & Hrest). rewrite Hp in Hm.
    injection Hm as <-. cbn [next handler].
    destruct (lseg_start_not_zero_ctx _ _ _ _ _ Hrest Hterm) as (nx & Hr & _).
    unfold deref. rewrite Hr.
    rewrite (IH r nx fuel Hrest Hr). reflexivity.
Qed.

Lemma build_cons_ctx h0 rest σ :
  build (h0 :: rest) σ =
  let '(nxt, σ1) := build rest σ in
  let '(p, σ2) := alloc nxt σ1 in
  ({| handler := h0; next := Some p |}, σ2).
Proof. destruct rest; reflexivity. Qed.

Lemma chain_void_alloc_ctx σ :
  chain ((σ ++ [zeroMiddleware]) ++
         [{| handler := HandlerFunc (Some noop); next := Some (length σ) |}])
        (S (length σ)) [] (S (length σ)) (length σ).
Proof.
  split; [reflexivity|]. split.
  - split.
    + rewrite lookup_app_r; rewrite length_app; cbn [length]; [|lia].
      replace (S (length σ) - (length σ + 1)) with 0 by lia. reflexivity.
    + apply lookup_app_l_Some. apply list_lookup_middle. reflexivity.
  - cbn. repeat (apply NoDup_cons; split; [fresh_addr|]). apply NoDup_nil_2.
Qed.

Lemma build_chain_ctx hs :
  ∀ σ m σ1, build hs σ = (m, σ1) →
    σ `prefix_of` σ1 ∧
    ∃ cells v z, cells.*2 = hs ∧ chain (σ1 ++ [m]) (length σ1) cells v z.
Proof.
  induction hs as [|h0 rest IH]; intros σ m σ1 Hb.
  - cbn in Hb. injection Hb as <- <-. split; [apply prefix_app_r; reflexivity|].
    exists [], (S (length σ)), (length σ). split; [reflexivity|].
    rewrite length_app; cbn [length].
    replace (length σ + 1) with (S (length σ)) by lia.
    apply chain_void_alloc_ctx.
  - rewrite build_cons_ctx in Hb.
    destruct (build rest σ) as [nxt σ'] eqn:Hrest.
    cbn in Hb. injection Hb as <- <-.
    destruct (IH _ _ _ Hrest) as (Hpre & cells & v & z & Hhs & Hch).
    split; [apply prefix_app_r; exact Hpre|].
    exists ((length (σ' ++ [nxt]), h0) :: cells), v, z.
    split; [cbn; congruence|].
    pose proof (chain_bound_ctx _ _ _ _ _ Hch) as Hbound.
    destruct Hch as (Hseg & Hterm & Hnd).
    split; [|split].
    + cbn [lseg fst snd]. split; [reflexivity|]. exists (length σ'). split.
      * apply list_lookup_middle. reflexivity.
      * apply lseg_ext_ctx. exact Hseg.
    + apply terminal_ext_ctx. exact Hterm.
    + cbn [fmap list_fmap fst app]. apply NoDup_cons. split; [|exact Hnd].
      intros Hin. rewrite Forall_forall in Hbound. apply Hbound in Hin. lia.
Qed.

Lemma New_chain_ctx hs σ0 n σ :
  New hs σ0 = (n, σ) →
  σ0 `prefix_of` σ ∧ ∃ cells v z, cells.*2 = hs ∧ chain σ n cells v z.
Proof.
  unfold New. destruct (build hs σ0) as [m σ1] eqn:Hb. unfold alloc.
  intros H. injection H as <- <-.
  destruct (build_chain_ctx _ _ _ _ Hb) as (Hpre & cells & v & z & Hhs & Hch).
  split; [apply prefix_app_r; exact Hpre|]. eauto.
Qed.

Lemma appendMiddleware_empty_ctx σ n v z h fuel :
  chain σ n [] v z → 0 < fuel →
  appendMiddleware fuel (Some n) h σ = Ok (append_at_head n h σ).
Proof.
  intros (Hseg & Hterm & Hnd) Hfuel. cbn [lseg] in Hseg. subst v.
  unfold appendMiddleware.
  rewrite (append_walk_lseg_ctx σ [] n z Hterm n None fuel) by (cbn; auto).
  cbn [last_or last fmap list_fmap mbind result_bind].
  destruct Hterm as [Hn Hz]. pose proof (lookup_lt_Some _ _ _ Hn) as Hlt.
  unfold store_handler, deref. rewrite Hn. cbn [mbind result_bind next].
  unfold voidMiddleware, alloc. cbn [store_next deref].
  rewrite !length_app, !length_insert. cbn [length].
  rewrite <- !app_assoc. cbn [app].
  rewrite lookup_app_l by (rewrite length_insert; exact Hlt).
  rewrite list_lookup_insert_eq by exact Hlt.
  cbn [mbind result_bind handler]. f_equal.
  rewrite insert_app_l by (rewrite length_insert; exact Hlt).
  rewrite list_insert_insert_eq. unfold append_at_head.
  repeat f_equal; lia.
Qed.

Lemma chain_append_at_head_ctx σ n v z h :
  chain σ n [] v z →
  chain (append_at_head n h σ) n [(n, h)] (S (length σ)) (length σ).
Proof.
  intros (Hseg & [Hn Hz] & Hnd). cbn [lseg] in Hseg. subst v.
  pose proof (lookup_lt_Some _ _ _ Hn) as Hlt.
  unfold append_at_head. split; [|split].
  - cbn [lseg fst snd]. split; [reflexivity|].
    exists (S (length σ)). split; [|reflexivity].
    apply lookup_app_l_Some. apply list_lookup_insert_eq. exact Hlt.
  - split.
    + rewrite lookup_app_r; rewrite length_insert; [|lia].
      replace (S (length σ) - length σ) with 1 by lia. reflexivity.
    + rewrite lookup_app_r; rewrite length_insert; [|lia].
      replace (length σ - length σ) with 0 by lia. reflexivity.
  - cbn. repeat (apply NoDup_cons; split; [fresh_addr|]). apply NoDup_nil_2.
Qed.

Lemma appendMiddleware_after_ctx σ n cs lp hp v z h fuel :
  chain σ n (cs ++ [(lp, hp)]) v z → S (length cs) < fuel →
  appendMiddleware fuel (Some n) h σ = Ok (append_after lp hp h v σ).
Proof.
  intros (Hseg & Hterm & Hnd) Hfuel. unfold appendMiddleware.
  rewrite (append_walk_lseg_ctx σ _ v z Hterm n None fuel Hseg)
    by (rewrite length_app; cbn; lia).
  unfold last_or. rewrite fmap_app. cbn [fmap list_fmap fst].
  rewrite last_snoc. cbn [mbind result_bind].
  apply lseg_app_ctx in Hseg as (r & _ & Hlast). cbn [lseg fst snd] in Hlast.
  destruct Hlast as (<- & r' & Hlp & <-).
  pose proof (lookup_lt_Some _ _ _ Hlp) as Hlt.
  unfold alloc, store_next, deref.
  rewrite lookup_app_l by exact Hlt. rewrite Hlp.
  cbn [mbind result_bind handler]. f_equal.
  rewrite insert_app_l by exact Hlt. reflexivity.
Qed.

Lemma chain_append_after_ctx σ n cs lp hp v z h :
  chain σ n (cs ++ [(lp, hp)]) v z →
  chain (append_after lp hp h v σ) n
        (cs ++ [(lp, hp); (length σ, h)]) v z.
Proof.
  intros Hch. pose proof (chain_bound_ctx _ _ _ _ _ Hch) as Hbound.
  destruct Hch as (Hseg & Hterm & Hnd).
  apply lseg_app_ctx in Hseg as (r & Hcs & Hlast). cbn [lseg fst snd] in Hlast.
  destruct Hlast as (<- & r' & Hlp & <-).
  pose proof (lookup_lt_Some _ _ _ Hlp) as Hlt.
  rewrite fmap_app in Hnd, Hbound. cbn [fmap list_fmap fst] in Hnd, Hbound.
  rewrite <- app_assoc in Hnd, Hbound. cbn [app] in Hnd, Hbound.
  apply NoDup_app in Hnd as (Hnd1 & Hdisj & Hnd2).
  apply NoDup_cons in Hnd2 as (Hlp_notin & Hnd2).
  apply not_elem_of_cons in Hlp_notin as [Hlp_v Hlp_notin].
  apply not_elem_of_cons in Hlp_notin as [Hlp_z _].
  unfold append_after. split; [|split].
  - apply lseg_app_ctx. exists lp. split.
    + apply lseg_ext_ctx. apply lseg_frame_ctx; [|exact Hcs].
      intros Hin. apply (Hdisj _ Hin). left.
    + cbn [lseg fst snd]. split; [reflexivity|]. exists (length σ). split.
      * apply lookup_app_l_Some. apply list_lookup_insert_eq. exact Hlt.
      * split; [reflexivity|]. exists r'. split; [|reflexivity].
        rewrite lookup_app_r; rewrite length_insert; [|lia].
        replace (length σ - length σ) with 0 by lia. reflexivity.
  - apply terminal_ext_ctx. apply terminal_frame_ctx; [exact Hlp_v | exact Hlp_z | exact Hterm].
  - rewrite fmap_app. cbn [fmap list_fmap fst]. rewrite <- app_assoc.
    cbn [app]. apply NoDup_app. split; [exact Hnd1|]. split.
    + intros x Hin Hx. rewrite elem_of_cons in Hx.
      destruct Hx as [->|Hx]; [apply (Hdisj _ Hin); left|].
      rewrite elem_of_cons in Hx. destruct Hx as [->|Hx].
      * rewrite Forall_forall in Hbound.
        assert (length σ < length σ); [|lia].
        apply Hbound. apply elem_of_app. left. exact Hin.
      * apply (Hdisj _ Hin). right. exact Hx.
    + apply NoDup_cons. split.
      * fresh_addr.
      * apply NoDup_cons. split; [|exact Hnd2].
        intros Hin. rewrite Forall_forall in Hbound.
        assert (length σ < length σ); [|lia].
        apply Hbound. apply elem_of_app. right. right. exact Hin.
Qed.

Lemma Use_chain_ctx σ n cells v z h fuel :
  chain σ n cells v z → length cells < fuel →
  ∃ σ' cells' v' z',
    Use fuel n h σ = Ok σ' ∧ chain σ' n cells' v' z' ∧
    cells'.*2 = cells.*2 ++ [h].
Proof.
  intros Hch Hfuel. unfold Use.
  destruct cells as [|[lp hp] cs _] using rev_ind.
  - exists (append_at_head n h σ), [(n, h)], (S (length σ)), (length σ).
    split; [|split].
    + eapply appendMiddleware_empty_ctx; [exact Hch | lia].
    + eapply chain_append_at_head_ctx. exact Hch.
    + reflexivity.
  - rewrite length_app in Hfuel. cbn [length] in Hfuel.
    exists (append_after lp hp h v σ), (cs ++ [(lp, hp); (length σ, h)]), v, z.
    split; [|split].
    + eapply appendMiddleware_after_ctx; [exact Hch | lia].
    + apply chain_append_after_ctx. exact Hch.
    + rewrite !fmap_app. cbn [fmap list_fmap snd].
      rewrite <- app_assoc. reflexivity.
Qed.

Lemma Uses_chain_ctx us :
  ∀ σ n cells v z fuel,
    chain σ n cells v z → length cells + length us ≤ fuel →
    ∃ σ' cells' v' z',
      Uses fuel n us σ = Ok σ' ∧ chain σ' n cells' v' z' ∧
      cells'.*2 = cells.*2 ++ us.
Proof.
  induction us as [|u us IH]; intros σ n cells v z fuel Hch Hfuel.
  - exists σ, cells, v, z. cbn [Uses]. rewrite app_nil_r. auto.
  - cbn [length] in Hfuel. cbn [Uses].
    destruct (Use_chain_ctx σ n cells v z u fuel Hch) as (σ1 & c1 & v1 & z1 & HU & Hch1 & Hc1);
      [lia|].
    rewrite HU. cbn [mbind result_bind].
    assert (Hlen : length c1 = S (length cells)).
    { rewrite <- (length_fmap snd c1), Hc1, length_app, length_fmap.
      cbn [length]. lia. }
    destruct (IH σ1 n c1 v1 z1 fuel Hch1) as (σ' & c' & v' & z' & HUs & Hch' & Hc');
      [lia|].
    exists σ', c', v', z'. split; [exact HUs|]. split; [exact Hch'|].
    rewrite Hc', Hc1, <- app_assoc. reflexivity.
Qed.

Lemma stack_chain_ctx hs us σ0 fuel :
  length hs + length us ≤ fuel →
  ∃ n σ cells v z,
    stack fuel hs us σ0 = Ok (n, σ) ∧ chain σ n cells v z ∧
    cells.*2 = hs ++ us.
Proof.
  intros Hfuel. unfold stack.
  destruct (New hs σ0) as [n σ1] eqn:HN.
  destruct (New_chain_ctx _ _ _ _ HN) as (_ & c1 & v1 & z1 & Hc1 & Hch1).
  destruct (Uses_chain_ctx us σ1 n c1 v1 z1 fuel Hch1) as (σ & cells & v & z & HU & Hch & Hc).
  { rewrite <- (length_fmap snd c1), Hc1. exact Hfuel. }
  exists n, σ, cells, v, z. rewrite HU. cbn [mbind result_bind].
  split; [reflexivity|]. split; [exact Hch|]. rewrite Hc, Hc1. reflexivity.
Qed.

Lemma chain_head_lookup_ctx σ n cells v z :
  chain σ n cells v z → ∃ m, σ !! n = Some m.
Proof.
  intros (Hseg & Hterm & _).
  destruct (lseg_start_not_zero_ctx _ _ _ _ _ Hseg Hterm) as (m & Hm & _). eauto.
Qed.

Lemma Negroni_ServeHTTPC_chain σ n cells v z fuel ctx tk s :
  chain σ n cells v z →
  Negroni_ServeHTTPC fuel σ n ctx tk s =
  run fuel cells.*2 ctx {| tokens := tk; rw := NewResponseWriter s |}.
Proof.
  intros Hch. destruct (chain_head_lookup_ctx _ _ _ _ _ Hch) as (m & Hm).
  destruct Hch as (Hseg & Hterm & _).
  unfold Negroni_ServeHTTPC, deref. rewrite Hm.
  rewrite (serve_lseg_ctx σ cells v z Hterm n m fuel Hseg Hm). reflexivity.
Qed.

(** ** Runs of deriving and of wrapped units *)

Lemma marked_nil w : marked [] w = w.
Proof. destruct w. unfold marked. cbn. rewrite app_nil_r. reflexivity. Qed.

Lemma marked_cons t ts w : marked ts (emit t w) = marked (t :: ts) w.
Proof. unfold marked, emit. cbn. rewrite <- app_assoc. reflexivity. Qed.

Lemma marked_after_nil o : marked_after [] o = o.
Proof.
  destruct o as [[tk r]| |]; try reflexivity.
  unfold marked_after, marked. cbn. rewrite app_nil_r. reflexivity.
Qed.

Lemma marked_after_snoc t ts o :
  andThen (marked_after ts o) (fun w => Done (emit t w)) =
  marked_after (ts ++ [t]) o.
Proof.
  destruct o as [[tk r]| |]; try reflexivity.
  unfold marked_after, marked, emit. cbn. rewrite <- app_assoc. reflexivity.
Qed.

Lemma run_deriving_prefix (show : Context → string) fs :
  ∀ rest fuel ctx w, length fs ≤ fuel →
    run fuel ((deriving show <$> fs) ++ rest) ctx w =
    marked_after (rev (Note <$> (show <$> derived fs ctx)))
      (run (fuel - length fs) rest (foldl (fun a f => f a) ctx fs)
           (marked (Note <$> (show <$> derived fs ctx)) w)).
Proof.
  induction fs as [|f fs IH]; intros rest fuel ctx w Hfuel.
  - cbn [fmap list_fmap app length rev derived foldl]. rewrite Nat.sub_0_r.
    rewrite marked_nil, marked_after_nil. reflexivity.
  - cbn [length] in Hfuel. destruct fuel as [|fuel]; [lia|].
    cbn [fmap list_fmap app length rev run deriving Handler_ServeHTTP
         Nat.sub derived foldl].
    rewrite IH by lia. rewrite marked_after_snoc, marked_cons. reflexivity.
Qed.

Lemma run_wrapped_ctx (hs : list (httpHandler + ContextHandler Context)) :
  ∀ fuel ctx w, length hs < fuel →
    run fuel (wrapped <$> hs) ctx w = serveAll hs ctx w.
Proof.
  induction hs as [|[p|c] hs IH]; intros [|fuel] ctx w Hfuel;
    cbn [length] in Hfuel; try lia; [reflexivity| |];
    cbn [fmap list_fmap run wrapped Wrap WrapCH Handler_ServeHTTP serveAll];
    apply andThen_ext; intros w'; apply IH; lia.
Qed.

(** X9. The context flows down, not up.  In front of any chain, a row of
    units that each derive a context from the one they received and hand
    it to their continuation makes the rest of the chain run with the
    context derived by all of them in turn; when the rest has returned,
    each unit still holds the context it derived itself. *)
Theorem context_flows_down (show : Context → string)
    (hs us : list (Handler Context)) (fs : list (Context → Context))
    (rest : list (Handler Context)) (σ0 σ1 : list (middleware Context))
    (fuel k : nat) (ctx : Context) (tk : list token) (s : list sinkEvent) :
  hs ++ us = (deriving show <$> fs) ++ rest →
  length hs + length us ≤ fuel →
  ∃ n σ,
    stack fuel hs us σ0 = Ok (n, σ) ∧
    Negroni_ServeHTTPC (length fs + k) σ n ctx tk s =
    marked_after (rev (Note <$> (show <$> derived fs ctx)))
      (Negroni_ServeHTTPC k (New rest σ1).2 (New rest σ1).1
         (foldl (fun a f => f a) ctx fs)
         (tk ++ (Note <$> (show <$> derived fs ctx))) s).
Proof.
  intros Hsplit Hfuel.
  destruct (stack_chain_ctx hs us σ0 fuel Hfuel)
    as (n & σ & cells & v & z & Hst & Hch & Hcells).
  destruct (New rest σ1) as [n' σ'] eqn:HN.
  destruct (New_chain_ctx _ _ _ _ HN) as (_ & cells' & v' & z' & Hcells' & Hch').
  cbn [fst snd]. exists n, σ. split; [exact Hst|].
  rewrite (Negroni_ServeHTTPC_chain _ _ _ _ _ _ _ _ _ Hch), Hcells, Hsplit.
  rewrite (Negroni_ServeHTTPC_chain _ _ _ _ _ _ _ _ _ Hch'), Hcells'.
  rewrite run_deriving_prefix by lia.
  replace (length fs + k - length fs) with k by lia. reflexivity.
Qed.

(** X10. Plain and context handlers share the caller's context.  A stack
    made only of handlers registered through [UseHandler],
    [UseHandlerFunc], [UseContextHandler] and [UseContextHandlerFunc] runs
    every one of them in registration order, each context handler with the
    very context the request was served with; [ServeHTTP] is the same
    with [context.Background()]. *)
Theorem wrapped_handlers_share_context (Background : Context)
    (hs us : list (httpHandler + ContextHandler Context))
    (σ0 : list (middleware Context)) (fuel : nat) (ctx : Context)
    (tk : list token) (s : list sinkEvent) :
  length hs + length us < fuel →
  ∃ n σ,
    stack fuel (wrapped <$> hs) (wrapped <$> us) σ0 = Ok (n, σ) ∧
    Negroni_ServeHTTPC fuel σ n ctx tk s =
    serveAll (hs ++ us) ctx {| tokens := tk; rw := NewResponseWriter s |} ∧
    Negroni_ServeHTTP Background fuel σ n tk s =
    serveAll (hs ++ us) Background
      {| tokens := tk; rw := NewResponseWriter s |}.
Proof.
  intros Hfuel.
  destruct (stack_chain_ctx (wrapped <$> hs) (wrapped <$> us) σ0 fuel)
    as (n & σ & cells & v & z & Hst & Hch & Hcells).
  { rewrite !length_fmap. lia. }
  exists n, σ. split; [exact Hst|].
  change (Negroni_ServeHTTP Background fuel σ n tk s)
    with (Negroni_ServeHTTPC fuel σ n Background tk s).
  rewrite !(Negroni_ServeHTTPC_chain _ _ _ _ _ _ _ _ _ Hch), Hcells.
  rewrite <- fmap_app.
  split; apply run_wrapped_ctx; rewrite length_app; lia.
Qed.

End CtxFacts.

Lemma context_flows_down_witness :
  let show := fun c : string => c in
  let f1 := fun c : string => String.append c "a" in
  let f2 := fun c : string => String.append c "b" in
  let probe : Ctx.Handler string :=
    Ctx.HandlerFunc (Some (fun _ ctx w => Done (emit (Note ctx) w))) in
  [Ctx.deriving show f1] ++ [Ctx.deriving show f2; probe] =
    (Ctx.deriving show <$> [f1; f2]) ++ [probe] ∧
  length [Ctx.deriving show f1] + length [Ctx.deriving show f2; probe] ≤ 3 ∧
  ∃ n σ,
    Ctx.stack 3 [Ctx.deriving show f1] [Ctx.deriving show f2; probe] [] =
      Ok (n, σ) ∧
    Ctx.Negroni_ServeHTTPC (length [f1; f2] + 1) σ n "r"%string [] [] =
    marked_after (rev (Note <$> (show <$> Ctx.derived [f1; f2] "r"%string)))
      (Ctx.Negroni_ServeHTTPC 1 (Ctx.New [probe] []).2 (Ctx.New [probe] []).1
         (foldl (fun a f => f a) "r"%string [f1; f2])
         ([] ++ (Note <$> (show <$> Ctx.derived [f1; f2] "r"%string))) []).
Proof.
  intros show f1 f2 probe. split; [reflexivity|]. split; [cbn; lia|].
  apply (context_flows_down string show [Ctx.deriving show f1]
           [Ctx.deriving show f2; probe] [f1; f2] [probe] [] [] 3 1 "r"%string [] []).
  - reflexivity.
  - cbn. lia.
Defined.

Lemma wrapped_handlers_share_context_witness :
  let p : httpHandler + Ctx.ContextHandler string :=
    inl (HttpHandlerFunc (Some (fun w => Done (emit (Note "plain") w)))) in
  let c : httpHandler + Ctx.ContextHandler string :=
    inr (Ctx.ContextHandlerFuncOf (Some (fun ctx w => Done (emit (Note ctx) w)))) in
  length [p] + length [c; inr Ctx.NilContextHandler] < 4 ∧
  ∃ n σ,
    Ctx.stack 4 (Ctx.wrapped <$> [p])
      (Ctx.wrapped <$> [c; inr Ctx.NilContextHandler]) [] = Ok (n, σ) ∧
    Ctx.Negroni_ServeHTTPC 4 σ n "k"%string [] [] =
    Ctx.serveAll ([p] ++ [c; inr Ctx.NilContextHandler]) "k"%string
      {| tokens := []; rw := NewResponseWriter [] |} ∧
    Ctx.Negroni_ServeHTTP "r"%string 4 σ n [] [] =
    Ctx.serveAll ([p] ++ [c; inr Ctx.NilContextHandler]) "r"%string
      {| tokens := []; rw := NewResponseWriter [] |}.
Proof.
  intros p c. split; [cbn; lia|].
  apply (wrapped_handlers_share_context string "r"%string [p]
           [c; inr Ctx.NilContextHandler] [] 4 "k"%string [] []).
  cbn. lia.
Defined.

(** ** The two versions side by side *)

Lemma run_lift (Context : Type) (hs : list Handler) :
  ∀ fuel (ctx : Context), Ctx.run fuel (lift <$> hs) ctx = run fuel hs.
Proof.
  induction hs as [|h hs IH]; intros [|fuel] ctx; try reflexivity.
  cbn [fmap list_fmap Ctx.run run].
  destruct h as [|[f|]]; cbn [lift Ctx.Handler_ServeHTTP Handler_ServeHTTP];
    try reflexivity.
  rewrite IH. reflexivity.
Qed.

(** X11. The fork extends the first version.  Handlers of the first
    version, taken over as handlers that ignore the context and hand it on
    unchanged, make a stack of the fork that serves every request, with
    any context, exactly as the stack of the first version does with the
    same handlers. *)
Theorem lifted_stack_agrees (Context : Type) (hs us : list Handler)
    (σ0 : heap) (σ0' : list (Ctx.middleware Context)) (fuel : nat) :
  length hs + length us ≤ fuel →
  ∃ n σ n' σ',
    stack fuel hs us σ0 = Ok (n, σ) ∧
    Ctx.stack fuel (lift <$> hs) (lift <$> us) σ0' = Ok (n', σ') ∧
    ∀ fs ctx tk s,
      Ctx.Negroni_ServeHTTPC fs σ' n' ctx tk s =
      Negroni_ServeHTTP fs σ n tk s.
Proof.
  intros Hfuel.
  destruct (stack_chain hs us σ0 fuel Hfuel)
    as (n & σ & cells & v & z & Hst & Hch & Hcells).
  destruct (stack_chain_ctx Context (lift <$> hs) (lift <$> us) σ0' fuel)
    as (n' & σ' & cells' & v' & z' & Hst' & Hch' & Hcells').
  { rewrite !length_fmap. exact Hfuel. }
  exists n, σ, n', σ'. split; [exact Hst|]. split; [exact Hst'|].
  intros fs ctx tk s.
  rewrite (Negroni_ServeHTTPC_chain _ _ _ _ _ _ _ _ _ _ Hch'), Hcells'.
  rewrite (Negroni_ServeHTTP_chain _ _ _ _ _ _ _ _ Hch), Hcells.
  rewrite <- fmap_app, run_lift. reflexivity.
Qed.

Lemma lifted_stack_agrees_witness :
  length [onion 1; NilHandler] + length [onion 3] ≤ 3 ∧
  ∃ n σ n' σ',
    stack 3 [onion 1; NilHandler] [onion 3] [] = Ok (n, σ) ∧
    Ctx.stack 3 (lift <$> [onion 1; NilHandler]) (lift <$> [onion 3])
      (@nil (Ctx.middleware string)) = Ok (n', σ') ∧
    ∀ fs ctx tk s,
      Ctx.Negroni_ServeHTTPC fs σ' n' ctx tk s =
      Negroni_ServeHTTP fs σ n tk s.
Proof.
  split; [cbn; lia|].
  apply (lifted_stack_agrees string [onion 1; NilHandler] [onion 3] [] [] 3).
  cbn. lia.
Defined.
